(** * TinyTask: scheduling arithmetic over a wrapping 32-bit tick counter

    Shallow embedding of [TinyTask.cpp] / [TinyTask.h].

    - [unsigned long] and [long] are the 32-bit types of the Arduino
      targets; both are carried as [Z], the conversions between them
      ([to_ulong], [to_long]) are written out.
    - [millis()] and [micros()] are the hardware tick sources.  One reading
      of the hardware is a [Ticks] record; a member function that reads the
      hardware once takes a [Ticks], [loop], which reads it once per
      iteration of its [while], takes the sequence of successive readings.
    - function pointers and [void*] are addresses ([Z]), [NULL] is 0.
    - the callback body is host code: invoking it is recorded as an [Event]
      carrying the task object as the callee finds it. *)

From Stdlib Require Import ZArith Lia Bool List Wf_nat.
Import ListNotations.
Local Open Scope Z_scope.

(** ** Machine integers *)

Module Word.

Definition width : Z := 32.
Definition modulus : Z := 2 ^ width.
Definition half : Z := 2 ^ (width - 1).

(** Conversion to [unsigned long]: reduction modulo [2^32]. *)
Definition to_ulong (z : Z) : Z := z mod modulus.

(** Conversion to [long]: the two's complement reading of the low 32 bits. *)
Definition to_long (z : Z) : Z :=
  let u := z mod modulus in
  if u <? half then u else u - modulus.

Definition is_ulong (z : Z) : Prop := 0 <= z < modulus.
Definition is_long (z : Z) : Prop := - half <= z < half.

End Word.

Import Word.

(** ** The hardware and the task object *)

(** What [millis()] and [micros()] return at one reading. *)
Record Ticks : Type := mkTicks { millis : Z; micros : Z }.

Definition NULL : Z := 0.

(** The private members of [class TinyTask], in declaration order. *)
Record TinyTask : Type := mkTinyTask {
  periodic : bool;
  active : bool;
  microseconds : bool;
  pointerParam : Z;
  interval : Z;
  timeout : Z;
  taskToCall : Z;
  taskToCallTakesPtr : Z
}.

Definition set_periodic (b : bool) (t : TinyTask) : TinyTask :=
  mkTinyTask b (active t) (microseconds t) (pointerParam t) (interval t)
             (timeout t) (taskToCall t) (taskToCallTakesPtr t).

Definition set_active (b : bool) (t : TinyTask) : TinyTask :=
  mkTinyTask (periodic t) b (microseconds t) (pointerParam t) (interval t)
             (timeout t) (taskToCall t) (taskToCallTakesPtr t).

Definition set_microseconds (b : bool) (t : TinyTask) : TinyTask :=
  mkTinyTask (periodic t) (active t) b (pointerParam t) (interval t)
             (timeout t) (taskToCall t) (taskToCallTakesPtr t).

Definition set_pointerParam (p : Z) (t : TinyTask) : TinyTask :=
  mkTinyTask (periodic t) (active t) (microseconds t) p (interval t)
             (timeout t) (taskToCall t) (taskToCallTakesPtr t).

Definition set_interval (i : Z) (t : TinyTask) : TinyTask :=
  mkTinyTask (periodic t) (active t) (microseconds t) (pointerParam t) i
             (timeout t) (taskToCall t) (taskToCallTakesPtr t).

Definition set_timeout (d : Z) (t : TinyTask) : TinyTask :=
  mkTinyTask (periodic t) (active t) (microseconds t) (pointerParam t)
             (interval t) d (taskToCall t) (taskToCallTakesPtr t).

(** The members are machine values. *)
Record wf (t : TinyTask) : Prop := mkWf {
  wf_interval : is_long (interval t);
  wf_timeout : is_ulong (timeout t)
}.

Definition wf_ticks (hw : Ticks) : Prop :=
  is_ulong (millis hw) /\ is_ulong (micros hw).

(** ** Construction

    [raw] is the storage the object is built in: [periodic], [pointerParam],
    [interval] and [timeout] have no initialiser and keep what the storage
    holds (all zero for an object of static storage duration). *)

Definition TinyTask_new (raw : TinyTask) (taskToCall0 : Z) : TinyTask :=
  mkTinyTask (periodic raw) false false (pointerParam raw) (interval raw)
             (timeout raw) taskToCall0 NULL.

Definition TinyTask_newTakesPtr (raw : TinyTask) (taskToCallTakesPtr0 : Z)
  : TinyTask :=
  mkTinyTask (periodic raw) false false (pointerParam raw) (interval raw)
             (timeout raw) NULL taskToCallTakesPtr0.

Definition zeroed : TinyTask := mkTinyTask false false false 0 0 0 0 0.

(** ** Scheduling calls

    Each returns the [boolean] result with the object after the call. *)

Definition callIn (hw : Ticks) (interval0 : Z) (t : TinyTask)
  : bool * TinyTask :=
  if interval t <? 0 then (false, t)
  else
    let t1 :=
      if microseconds t
      then set_timeout (to_ulong (micros hw + interval0)) t
      else set_timeout (to_ulong (millis hw + interval0)) t in
    (true, set_active true (set_periodic false t1)).

Definition callAt (hw : Ticks) (futureTime : Z) (t : TinyTask)
  : bool * TinyTask :=
  let rejected :=
    if microseconds t
    then to_ulong (futureTime - micros hw) <? 0
    else to_ulong (futureTime - millis hw) <? 0 in
  if rejected then (false, t)
  else
    (true, set_active true (set_periodic false (set_timeout futureTime t))).

Definition callEvery (hw : Ticks) (interval0 : Z) (t : TinyTask)
  : bool * TinyTask :=
  if interval0 <? 0 then (false, t)
  else
    let t1 := set_interval interval0 t in
    let t2 :=
      if microseconds t1
      then set_timeout (to_ulong (micros hw + interval0)) t1
      else set_timeout (to_ulong (millis hw + interval0)) t1 in
    (true, set_active true (set_periodic true t2)).

(** The overloads taking a pointer store it, call the one-argument overload
    as an expression statement and reach the closing brace: no [return]
    statement is executed.  [None] is that outcome. *)

Definition callIn_ptr (hw : Ticks) (interval0 pointerParam0 : Z)
  (t : TinyTask) : option bool * TinyTask :=
  let t1 := set_pointerParam pointerParam0 t in
  let '(_, t2) := callIn hw interval0 t1 in
  (None, t2).

Definition callAt_ptr (hw : Ticks) (futureTime pointerParam0 : Z)
  (t : TinyTask) : option bool * TinyTask :=
  let t1 := set_pointerParam pointerParam0 t in
  let '(_, t2) := callAt hw futureTime t1 in
  (None, t2).

Definition callEvery_ptr (hw : Ticks) (interval0 pointerParam0 : Z)
  (t : TinyTask) : option bool * TinyTask :=
  let t1 := set_pointerParam pointerParam0 t in
  let '(_, t2) := callEvery hw interval0 t1 in
  (None, t2).

(** ** Time base, remaining time, cancellation *)

Definition useMillis (t : TinyTask) : TinyTask := set_microseconds false t.

Definition useMicros (t : TinyTask) : TinyTask := set_microseconds true t.

(** [timeLeft] is an [unsigned long]; the value returned is its conversion
    to [long]. *)
Definition remaining (hw : Ticks) (t : TinyTask) : Z :=
  if negb (active t) then -1
  else
    let timeLeft :=
      if microseconds t
      then to_ulong (timeout t - micros hw)
      else to_ulong (timeout t - millis hw) in
    if timeLeft <? 0 then 0 else to_long timeLeft.

Definition cancel (t : TinyTask) : TinyTask := set_active false t.

(** ** Firing *)

(** One invocation of the host's task function; [seen] is the object at the
    moment of the call. *)
Inductive Event : Type :=
| Call (fn : Z) (seen : TinyTask)
| CallTakesPtr (fn : Z) (arg : Z) (seen : TinyTask).

Definition callTask (t : TinyTask) : list Event :=
  if negb (taskToCall t =? NULL) then [Call (taskToCall t) t]
  else if negb (taskToCallTakesPtr t =? NULL)
       then [CallTakesPtr (taskToCallTakesPtr t) (pointerParam t) t]
       else [].

(** The [while] of [loop].  [clk n] is the [n]-th reading of the hardware
    made by the call; [None] when [fuel] tests of the condition were not
    enough to leave the loop. *)
Fixpoint catch_up (fuel : nat) (clk : nat -> Ticks) (n : nat) (t : TinyTask)
  : option TinyTask :=
  match fuel with
  | O => None
  | S fuel' =>
      if remaining (clk n) t <=? 0
      then catch_up fuel' clk (S n)
             (set_timeout (to_ulong (timeout t + interval t)) t)
      else Some t
  end.

Definition loop (fuel : nat) (clk : nat -> Ticks) (t : TinyTask)
  : option (TinyTask * list Event) :=
  if active t then
    if remaining (clk 0%nat) t <=? 0 then
      if periodic t then
        match catch_up fuel clk 1%nat t with
        | Some t' => Some (t', callTask t')
        | None => None
        end
      else
        let t' := set_active false t in
        Some (t', callTask t')
    else Some (t, [])
  else Some (t, []).

(** The tick source standing still during a call. *)
Definition steady (hw : Ticks) : nat -> Ticks := fun _ => hw.

(** The tick source the object consults. *)
Definition now (hw : Ticks) (t : TinyTask) : Z :=
  if microseconds t then micros hw else millis hw.

(** Signed distance from the current tick to [deadline], the quantity the
    expiration test is meant to look at. *)
Definition ahead (hw : Ticks) (t : TinyTask) (deadline : Z) : Z :=
  to_long (deadline - now hw t).

(** The deadline moved [j] periods on. *)
Definition advance (j : Z) (t : TinyTask) : TinyTask :=
  set_timeout (to_ulong (timeout t + j * interval t)) t.

Definition bound (t : TinyTask) : bool :=
  negb (taskToCall t =? NULL) || negb (taskToCallTakesPtr t =? NULL).

Definition seen_by (e : Event) : TinyTask :=
  match e with
  | Call _ s => s
  | CallTakesPtr _ _ s => s
  end.

(** ** Host programs

    A host drives one task object through its public members.  What the host
    observes is a list of [Out]: task invocations, values of [remaining()],
    and results of scheduling calls. *)

Inductive Op : Type :=
| OpCallIn (hw : Ticks) (interval0 : Z)
| OpCallInPtr (hw : Ticks) (interval0 pointerParam0 : Z)
| OpCallAt (hw : Ticks) (futureTime : Z)
| OpCallAtPtr (hw : Ticks) (futureTime pointerParam0 : Z)
| OpCallEvery (hw : Ticks) (interval0 : Z)
| OpCallEveryPtr (hw : Ticks) (interval0 pointerParam0 : Z)
| OpUseMillis
| OpUseMicros
| OpRemaining (hw : Ticks)
| OpCancel
| OpLoop (fuel : nat) (clk : nat -> Ticks).

Inductive Out : Type :=
| Fired (e : Event)
| Remains (r : Z)
| Result (b : option bool).

Definition exec (op : Op) (t : TinyTask) : option (TinyTask * list Out) :=
  match op with
  | OpCallIn hw i =>
      let '(b, t') := callIn hw i t in Some (t', [Result (Some b)])
  | OpCallInPtr hw i p =>
      let '(b, t') := callIn_ptr hw i p t in Some (t', [Result b])
  | OpCallAt hw f =>
      let '(b, t') := callAt hw f t in Some (t', [Result (Some b)])
  | OpCallAtPtr hw f p =>
      let '(b, t') := callAt_ptr hw f p t in Some (t', [Result b])
  | OpCallEvery hw i =>
      let '(b, t') := callEvery hw i t in Some (t', [Result (Some b)])
  | OpCallEveryPtr hw i p =>
      let '(b, t') := callEvery_ptr hw i p t in Some (t', [Result b])
  | OpUseMillis => Some (useMillis t, [])
  | OpUseMicros => Some (useMicros t, [])
  | OpRemaining hw => Some (t, [Remains (remaining hw t)])
  | OpCancel => Some (cancel t, [])
  | OpLoop fuel clk =>
      match loop fuel clk t with
      | Some (t', evs) => Some (t', map Fired evs)
      | None => None
      end
  end.

Fixpoint run (ops : list Op) (t : TinyTask) : option (TinyTask * list Out) :=
  match ops with
  | [] => Some (t, [])
  | op :: ops' =>
      match exec op t with
      | Some (t1, o1) =>
          match run ops' t1 with
          | Some (t2, o2) => Some (t2, o1 ++ o2)
          | None => None
          end
      | None => None
      end
  end.

(** [op] is a scheduling call that the one-argument overload accepts when
    made on [t]. *)
Definition schedules (op : Op) (t : TinyTask) : bool :=
  match op with
  | OpCallIn hw i | OpCallInPtr hw i _ => fst (callIn hw i t)
  | OpCallAt hw f | OpCallAtPtr hw f _ => fst (callAt hw f t)
  | OpCallEvery hw i | OpCallEveryPtr hw i _ => fst (callEvery hw i t)
  | _ => false
  end.

(** No call of [ops], made in turn from [t], is an accepted scheduling
    call. *)
Fixpoint unscheduled (ops : list Op) (t : TinyTask) : Prop :=
  match ops with
  | [] => True
  | op :: ops' =>
      schedules op t = false /\
      match exec op t with
      | Some (t', _) => unscheduled ops' t'
      | None => True
      end
  end.

Definition silent (o : Out) : Prop :=
  match o with
  | Fired _ => False
  | Remains r => r = -1
  | Result b => b <> Some true
  end.

(** ** Concrete objects and tick sources *)

(** The object of the example sketch: static storage, a task function at a
    non-null address. *)
Definition blink : TinyTask := TinyTask_new zeroed 1.

Definition at_ms (ms : Z) : Ticks := mkTicks ms (to_ulong (1000 * ms)).

(** A pending one-shot task with deadline 1000. *)
Definition pending1000 : TinyTask := snd (callIn (at_ms 750) 250 blink).

(** An object built in storage whose [interval] cell holds -1. *)
Definition stale : TinyTask :=
  TinyTask_newTakesPtr (mkTinyTask false false false 0 (-1) 0 0 0) 1.

(** [blink] on the microsecond time base, told to run every 0 microseconds
    when [micros()] reads 1000. *)
Definition every0 : TinyTask :=
  snd (callEvery (mkTicks 1 1000) 0 (useMicros blink)).

(** [micros()] moving on by [step] between successive readings. *)
Definition ticking (start step : Z) : nat -> Ticks :=
  fun n =>
    let us := start + step * Z.of_nat n in
    mkTicks (to_ulong (us / 1000)) (to_ulong us).

(** The first reading of [ticking 1000 4] lying more than [2^31] ticks past
    tick 1000. *)
Definition late : nat := Z.to_nat (2 ^ 29 + 1).

(** Number of invocations of the task function among what the host
    observed. *)
Fixpoint fired (outs : list Out) : nat :=
  match outs with
  | [] => 0%nat
  | Fired _ :: r => S (fired r)
  | _ :: r => fired r
  end.

(** [loop()] called once on each of the tick sources [clks] in turn. *)
Definition polls (fuel : nat) (clks : list (nat -> Ticks)) : list Op :=
  map (OpLoop fuel) clks.

(** The reading [hw] finds the task due and less than one interval
    overdue. *)
Definition due_within (hw : Ticks) (t : TinyTask) : Prop :=
  - interval t < remaining hw t <= 0.

(** In each of the calls, taken in turn, the three readings the call makes
    (one for the test on entry, two for the tests of the [while]) find the
    periodic task due and less than one interval overdue. *)
Fixpoint on_time (clks : list (nat -> Ticks)) (t : TinyTask) : Prop :=
  match clks with
  | [] => True
  | c :: r =>
      (due_within (c 0%nat) t /\ due_within (c 1%nat) t /\
       due_within (c 2%nat) t) /\
      on_time r (advance 1 t)
  end.

(** A reading of the hardware given by its microsecond counter. *)
Definition at_us (us : Z) : Ticks := mkTicks (to_ulong (us / 1000)) (to_ulong us).

(** [micros()] moving on by 4 ticks at each of the first three readings
    after tick 2000, then standing. *)
Definition settling : nat -> Ticks :=
  fun n => at_us (2000 + 4 * Z.of_nat (Nat.min 3 n)).

(** [blink] on the microsecond time base, told at tick 1000 to run every
    250 microseconds. *)
Definition every250 : TinyTask :=
  snd (callEvery (at_us 1000) 250 (useMicros blink)).


(** * Properties *)

(** ** Machine integers *)

Module WordFacts.

Lemma modulus_eq : modulus = 4294967296.
Proof. reflexivity. Qed.

Lemma half_eq : half = 2147483648.
Proof. reflexivity. Qed.

Lemma to_ulong_range (z : Z) : is_ulong (to_ulong z).
Proof.
  unfold is_ulong, to_ulong. apply Z.mod_pos_bound. rewrite modulus_eq. lia.
Qed.

Lemma to_ulong_never_negative (z : Z) : (to_ulong z <? 0) = false.
Proof.
  apply Z.ltb_ge. apply (to_ulong_range z).
Qed.

Lemma to_ulong_id (z : Z) : is_ulong z -> to_ulong z = z.
Proof.
  unfold is_ulong, to_ulong. intros H. apply Z.mod_small. exact H.
Qed.

Lemma to_long_range (z : Z) : is_long (to_long z).
Proof.
  unfold is_long, to_long.
  pose proof (to_ulong_range z) as H. unfold is_ulong, to_ulong in H.
  rewrite modulus_eq, half_eq in *.
  destruct (Z.ltb_spec (z mod 4294967296) 2147483648); lia.
Qed.

Lemma to_long_id (z : Z) : is_long z -> to_long z = z.
Proof.
  unfold is_long, to_long. rewrite modulus_eq, half_eq. intros H.
  destruct (Z_lt_le_dec z 0) as [Hneg | Hpos].
  - replace (z mod 4294967296) with (z + 4294967296).
    + destruct (Z.ltb_spec (z + 4294967296) 2147483648); lia.
    + apply Z.mod_unique with (q := -1); lia.
  - rewrite Z.mod_small by lia.
    destruct (Z.ltb_spec z 2147483648); lia.
Qed.

(** Conversions only look at the residue modulo [2^32]. *)
Lemma to_long_to_ulong (z : Z) : to_long (to_ulong z) = to_long z.
Proof.
  unfold to_long, to_ulong. rewrite Z.mod_mod; [reflexivity|].
  rewrite modulus_eq. lia.
Qed.

Lemma to_ulong_add_l (a b : Z) : to_ulong (to_ulong a + b) = to_ulong (a + b).
Proof.
  unfold to_ulong. apply Zplus_mod_idemp_l.
Qed.

Lemma to_ulong_sub_l (a b : Z) : to_ulong (to_ulong a - b) = to_ulong (a - b).
Proof.
  unfold to_ulong. apply Zminus_mod_idemp_l.
Qed.

Lemma to_long_congr (a b : Z) : to_ulong a = to_ulong b -> to_long a = to_long b.
Proof.
  unfold to_long, to_ulong. intros H. rewrite H. reflexivity.
Qed.

(** Adding to a value is adding to its signed reading. *)
Lemma to_long_shift (a b : Z) : to_long (a + b) = to_long (to_long a + b).
Proof.
  apply to_long_congr. unfold to_ulong, to_long.
  destruct (a mod modulus <? half).
  - symmetry. apply Zplus_mod_idemp_l.
  - replace (a mod modulus - modulus + b)
      with (a mod modulus + b + (-1) * modulus) by ring.
    rewrite Z_mod_plus_full. symmetry. apply Zplus_mod_idemp_l.
Qed.

End WordFacts.

Import WordFacts.

(** ** Reading the tick source *)

Lemma remaining_inactive (hw : Ticks) (t : TinyTask) :
  active t = false -> remaining hw t = -1.
Proof.
  intros H. unfold remaining. rewrite H. reflexivity.
Qed.

(** On an active task [remaining()] is the signed reading of
    [timeout - now]: the test [timeLeft < 0] on the unsigned difference never
    succeeds. *)
Lemma remaining_active (hw : Ticks) (t : TinyTask) :
  active t = true -> remaining hw t = ahead hw t (timeout t).
Proof.
  intros H. unfold remaining, ahead, now. rewrite H. cbn [negb].
  destruct (microseconds t);
    rewrite to_ulong_never_negative; apply to_long_to_ulong.
Qed.

Lemma remaining_is_long (hw : Ticks) (t : TinyTask) : is_long (remaining hw t).
Proof.
  destruct (active t) eqn:Ha.
  - rewrite remaining_active by exact Ha. apply to_long_range.
  - rewrite remaining_inactive by exact Ha.
    unfold is_long. rewrite half_eq. lia.
Qed.

(** ** Scheduling calls *)

(** [callAt] takes the accepting branch whatever the deadline: its two
    comparisons are made on [unsigned long] values. *)
Lemma callAt_accepts (hw : Ticks) (futureTime : Z) (t : TinyTask) :
  callAt hw futureTime t =
  (true, set_active true (set_periodic false (set_timeout futureTime t))).
Proof.
  unfold callAt. destruct (microseconds t);
    rewrite to_ulong_never_negative; reflexivity.
Qed.

(** [callIn] decides on the stored [interval] member, not on its argument. *)
Lemma callIn_accepts (hw : Ticks) (interval0 : Z) (t : TinyTask) :
  0 <= interval t ->
  callIn hw interval0 t =
  (true,
   mkTinyTask false true (microseconds t) (pointerParam t) (interval t)
              (to_ulong (now hw t + interval0))
              (taskToCall t) (taskToCallTakesPtr t)).
Proof.
  intros H. unfold callIn, now.
  destruct (Z.ltb_spec (interval t) 0) as [Hlt | _]; [lia|].
  destruct t as [p a [|] pp i d f g]; reflexivity.
Qed.

Lemma callIn_rejects (hw : Ticks) (interval0 : Z) (t : TinyTask) :
  interval t < 0 -> callIn hw interval0 t = (false, t).
Proof.
  intros H. unfold callIn.
  destruct (Z.ltb_spec (interval t) 0) as [_ | Hge]; [reflexivity | lia].
Qed.

Lemma callEvery_accepts (hw : Ticks) (interval0 : Z) (t : TinyTask) :
  0 <= interval0 ->
  callEvery hw interval0 t =
  (true,
   mkTinyTask true true (microseconds t) (pointerParam t) interval0
              (to_ulong (now hw t + interval0))
              (taskToCall t) (taskToCallTakesPtr t)).
Proof.
  intros H. unfold callEvery, now.
  destruct (Z.ltb_spec interval0 0) as [Hlt | _]; [lia|].
  destruct t as [p a [|] pp i d f g]; reflexivity.
Qed.

Lemma callEvery_rejects (hw : Ticks) (interval0 : Z) (t : TinyTask) :
  interval0 < 0 -> callEvery hw interval0 t = (false, t).
Proof.
  intros H. unfold callEvery.
  destruct (Z.ltb_spec interval0 0) as [_ | Hge]; [reflexivity | lia].
Qed.

(** C1.  The claim asks [callAt] to refuse a deadline whose signed distance
    from the current tick is negative.  With [millis()] at 1000 the deadline
    999 lies one tick in the past; the call returns [true] and arms the
    task for it. *)
Theorem callAt_past_deadline_accepted :
  ahead (at_ms 1000) blink 999 = -1 /\
  callAt (at_ms 1000) 999 blink =
  (true, mkTinyTask false true false 0 0 999 1 0).
Proof.
  split; reflexivity.
Qed.

(** C2.  The claim asks [callIn] to refuse every negative delay and to
    accept every other one, leaving the object alone on refusal.  On the
    object of the example sketch a delay of -5 at tick 1000 is accepted
    with deadline 995; on an object whose stored [interval] is negative a
    delay of 250 is refused, and the overload taking a pointer has replaced
    [pointerParam] by then. *)
Theorem callIn_tests_stored_interval :
  callIn (at_ms 1000) (-5) blink =
    (true, mkTinyTask false true false 0 0 995 1 0) /\
  callIn (at_ms 1000) 250 stale = (false, stale) /\
  callIn_ptr (at_ms 1000) (-5) 77 stale = (None, set_pointerParam 77 stale) /\
  pointerParam stale <> 77.
Proof.
  repeat split; try reflexivity. discriminate.
Qed.

(** C3.  The claim asks [remaining()] to report an expired active task as
    exactly 0.  A task pending for tick 1000 reports -1 at tick 1001, the
    value of an unscheduled task, and -500 at tick 1500. *)
Theorem remaining_overdue_is_negative :
  active pending1000 = true /\
  timeout pending1000 = 1000 /\
  remaining (at_ms 1001) pending1000 = -1 /\
  remaining (at_ms 1500) pending1000 = -500.
Proof.
  repeat split; reflexivity.
Qed.

(** C6.  [callEvery] refuses a negative interval and leaves the object as
    it is (the overload taking a pointer then leaves [active], [timeout]
    and [interval] as they are); any other interval is stored, the deadline becomes
    [now + interval] (wrapping), the task is periodic and active, nothing
    else changes, and the call returns [true]. *)
Theorem callEvery_spec (hw : Ticks) (interval0 : Z) (t : TinyTask) :
  (interval0 < 0 -> callEvery hw interval0 t = (false, t)) /\
  (interval0 < 0 ->
   forall p,
     let t' := snd (callEvery_ptr hw interval0 p t) in
     active t' = active t /\ timeout t' = timeout t /\
     interval t' = interval t) /\
  (0 <= interval0 ->
   fst (callEvery hw interval0 t) = true /\
   let t' := snd (callEvery hw interval0 t) in
   interval t' = interval0 /\
   timeout t' = to_ulong (now hw t + interval0) /\
   periodic t' = true /\
   active t' = true /\
   microseconds t' = microseconds t /\
   pointerParam t' = pointerParam t /\
   taskToCall t' = taskToCall t /\
   taskToCallTakesPtr t' = taskToCallTakesPtr t).
Proof.
  split; [| split]; intros H.
  - apply callEvery_rejects. exact H.
  - intros p. unfold callEvery_ptr.
    rewrite callEvery_rejects by exact H. repeat split.
  - rewrite callEvery_accepts by exact H. cbn. repeat split; reflexivity.
Qed.

Lemma callEvery_spec_witness :
  callEvery (at_ms 1000) (-250) blink = (false, blink) /\
  timeout (snd (callEvery (at_ms 1000) 250 blink)) = 1250.
Proof.
  split.
  - apply (proj1 (callEvery_spec (at_ms 1000) (-250) blink)). lia.
  - apply (proj2 (proj2 (callEvery_spec (at_ms 1000) 250 blink))). lia.
Defined.

(** C8.  The overloads taking a pointer act on the object as the stored
    pointer followed by the one-argument overload, and hand back no value:
    whatever boolean the one-argument overload produced, it is not what the
    overload returns. *)
Theorem ptr_overloads_drop_result (hw : Ticks) (x p : Z) (t : TinyTask) :
  (callIn_ptr hw x p t = (None, snd (callIn hw x (set_pointerParam p t))) /\
   fst (callIn_ptr hw x p t) <>
     Some (fst (callIn hw x (set_pointerParam p t)))) /\
  (callAt_ptr hw x p t = (None, snd (callAt hw x (set_pointerParam p t))) /\
   fst (callAt_ptr hw x p t) <>
     Some (fst (callAt hw x (set_pointerParam p t)))) /\
  (callEvery_ptr hw x p t =
     (None, snd (callEvery hw x (set_pointerParam p t))) /\
   fst (callEvery_ptr hw x p t) <>
     Some (fst (callEvery hw x (set_pointerParam p t)))).
Proof.
  unfold callIn_ptr, callAt_ptr, callEvery_ptr.
  destruct (callIn hw x (set_pointerParam p t)) as [b1 t1].
  destruct (callAt hw x (set_pointerParam p t)) as [b2 t2].
  destruct (callEvery hw x (set_pointerParam p t)) as [b3 t3].
  cbn [fst snd]. repeat split; discriminate.
Qed.

(** ** Time base *)

(** C9.  [useMicros] and [useMillis] write the [microseconds] flag and
    nothing else.  The stored deadline is kept as a number: a pending task
    is from then on compared against the other counter. *)
Theorem time_base_switch_frame (t : TinyTask) :
  (microseconds (useMicros t) = true /\
   timeout (useMicros t) = timeout t /\
   interval (useMicros t) = interval t /\
   active (useMicros t) = active t /\
   periodic (useMicros t) = periodic t /\
   pointerParam (useMicros t) = pointerParam t /\
   taskToCall (useMicros t) = taskToCall t /\
   taskToCallTakesPtr (useMicros t) = taskToCallTakesPtr t) /\
  (microseconds (useMillis t) = false /\
   timeout (useMillis t) = timeout t /\
   interval (useMillis t) = interval t /\
   active (useMillis t) = active t /\
   periodic (useMillis t) = periodic t /\
   pointerParam (useMillis t) = pointerParam t /\
   taskToCall (useMillis t) = taskToCall t /\
   taskToCallTakesPtr (useMillis t) = taskToCallTakesPtr t) /\
  (forall hw,
     remaining hw (useMicros t) =
       (if active t then to_long (timeout t - micros hw) else -1) /\
     remaining hw (useMillis t) =
       (if active t then to_long (timeout t - millis hw) else -1)).
Proof.
  split; [| split].
  - repeat split.
  - repeat split.
  - intros hw. destruct (active t) eqn:Ha.
    + split.
      * rewrite remaining_active by exact Ha. reflexivity.
      * rewrite remaining_active by exact Ha. reflexivity.
    + split; apply remaining_inactive; exact Ha.
Qed.

(** ** Polling *)

Lemma loop_inactive (fuel : nat) (clk : nat -> Ticks) (t : TinyTask) :
  active t = false -> loop fuel clk t = Some (t, []).
Proof.
  intros H. unfold loop. rewrite H. reflexivity.
Qed.

Lemma loop_not_due (fuel : nat) (clk : nat -> Ticks) (t : TinyTask) :
  0 < remaining (clk 0%nat) t -> loop fuel clk t = Some (t, []).
Proof.
  intros H. unfold loop. destruct (active t); [|reflexivity].
  destruct (Z.leb_spec (remaining (clk 0%nat) t) 0); [lia | reflexivity].
Qed.

Lemma loop_one_shot (fuel : nat) (clk : nat -> Ticks) (t : TinyTask) :
  active t = true -> periodic t = false -> remaining (clk 0%nat) t <= 0 ->
  loop fuel clk t = Some (set_active false t, callTask (set_active false t)).
Proof.
  intros Ha Hp Hr. unfold loop. rewrite Ha, Hp.
  destruct (Z.leb_spec (remaining (clk 0%nat) t) 0); [reflexivity | lia].
Qed.

Lemma callTask_seen (t : TinyTask) (e : Event) :
  In e (callTask t) -> seen_by e = t.
Proof.
  unfold callTask.
  destruct (negb (taskToCall t =? NULL));
    [| destruct (negb (taskToCallTakesPtr t =? NULL))];
    cbn; intros H;
    try (destruct H as [<- | []]; reflexivity); destruct H.
Qed.

Lemma callTask_bound (t : TinyTask) :
  bound t = true -> length (callTask t) = 1%nat.
Proof.
  unfold bound, callTask.
  destruct (negb (taskToCall t =? NULL));
    [reflexivity | destruct (negb (taskToCallTakesPtr t =? NULL))];
    [reflexivity | discriminate].
Qed.

(** C5.  A task built on a zero-argument task function, with [millis()] at
    1000 and [callIn(250)] accepted, has deadline 1250; [loop()] at tick
    1249 calls nothing and leaves the object as it is; [loop()] at tick 1250
    calls the task function once and leaves the task inactive.  Whenever a
    one-shot task is due, the task function is called on an object that is
    already inactive. *)
Theorem one_shot_scenario (raw : TinyTask) (fn us : Z) :
  fn <> NULL ->
  fst (callIn (mkTicks 1000 us) 250 (TinyTask_new raw fn)) = true ->
  let t1 := snd (callIn (mkTicks 1000 us) 250 (TinyTask_new raw fn)) in
  timeout t1 = 1250 /\
  (forall fuel clk, millis (clk 0%nat) = 1249 ->
     loop fuel clk t1 = Some (t1, [])) /\
  (forall fuel clk, millis (clk 0%nat) = 1250 ->
     loop fuel clk t1 =
       Some (set_active false t1, [Call fn (set_active false t1)]) /\
     active (set_active false t1) = false) /\
  (forall fuel clk t,
     active t = true -> periodic t = false -> remaining (clk 0%nat) t <= 0 ->
     loop fuel clk t =
       Some (set_active false t, callTask (set_active false t)) /\
     forall e, In e (callTask (set_active false t)) ->
               active (seen_by e) = false).
Proof.
  intros Hfn Hacc.
  assert (Hi : 0 <= interval (TinyTask_new raw fn)).
  { destruct (Z_lt_le_dec (interval (TinyTask_new raw fn)) 0) as [Hlt | Hge];
      [| exact Hge].
    rewrite callIn_rejects in Hacc by exact Hlt. discriminate. }
  rewrite callIn_accepts by exact Hi. cbn [snd].
  cbn [TinyTask_new microseconds pointerParam interval taskToCall
       taskToCallTakesPtr now millis].
  change (to_ulong (1000 + 250)) with 1250.
  split; [reflexivity|]. split; [|split].
  - intros fuel clk Hclk. apply loop_not_due.
    rewrite remaining_active by reflexivity.
    unfold ahead, now. cbn [microseconds timeout]. rewrite Hclk. reflexivity.
  - intros fuel clk Hclk. split; [|reflexivity].
    rewrite loop_one_shot.
    + unfold callTask. cbn [set_active taskToCall].
      destruct (Z.eqb_spec fn NULL) as [E | _]; [contradiction | reflexivity].
    + reflexivity.
    + reflexivity.
    + rewrite remaining_active by reflexivity.
      unfold ahead, now. cbn [microseconds timeout]. rewrite Hclk.
      change (to_long (1250 - 1250)) with 0. lia.
  - intros fuel clk t Ha Hp Hr. split.
    + apply loop_one_shot; assumption.
    + intros e He. rewrite (callTask_seen _ _ He). reflexivity.
Qed.

Lemma one_shot_scenario_witness :
  timeout (snd (callIn (mkTicks 1000 0) 250 (TinyTask_new zeroed 1))) = 1250.
Proof.
  refine (proj1 (one_shot_scenario zeroed 1 0 _ _)).
  - discriminate.
  - reflexivity.
Defined.

(** ** Cancellation *)

Lemma callIn_decision (hw : Ticks) (i p : Z) (t : TinyTask) :
  fst (callIn hw i (set_pointerParam p t)) = fst (callIn hw i t).
Proof.
  unfold callIn. cbn [set_pointerParam interval].
  destruct (interval t <? 0); reflexivity.
Qed.

Lemma callEvery_decision (hw : Ticks) (i p : Z) (t : TinyTask) :
  fst (callEvery hw i (set_pointerParam p t)) = fst (callEvery hw i t).
Proof.
  unfold callEvery. destruct (i <? 0); reflexivity.
Qed.

Lemma callIn_refused (hw : Ticks) (i : Z) (t : TinyTask) :
  fst (callIn hw i t) = false -> callIn hw i t = (false, t).
Proof.
  unfold callIn. destruct (interval t <? 0); [reflexivity | discriminate].
Qed.

Lemma callEvery_refused (hw : Ticks) (i : Z) (t : TinyTask) :
  fst (callEvery hw i t) = false -> callEvery hw i t = (false, t).
Proof.
  unfold callEvery. destruct (i <? 0); [reflexivity | discriminate].
Qed.

(** A call that is not an accepted scheduling call keeps an inactive task
    inactive and shows the host nothing but refusals and -1. *)
Lemma exec_inactive (op : Op) (t : TinyTask) :
  active t = false -> schedules op t = false ->
  exists t' outs,
    exec op t = Some (t', outs) /\ active t' = false /\ Forall silent outs.
Proof.
  intros Ha Hs. destruct op; cbn [exec schedules] in *.
  - rewrite (callIn_refused _ _ _ Hs). exists t, [Result (Some false)].
    repeat split; [exact Ha|]. constructor; [discriminate | constructor].
  - unfold callIn_ptr. rewrite <- (callIn_decision hw interval0 pointerParam0) in Hs.
    rewrite (callIn_refused _ _ _ Hs).
    exists (set_pointerParam pointerParam0 t), [Result None].
    repeat split; [exact Ha|]. constructor; [discriminate | constructor].
  - rewrite callAt_accepts in Hs. discriminate.
  - rewrite callAt_accepts in Hs. discriminate.
  - rewrite (callEvery_refused _ _ _ Hs). exists t, [Result (Some false)].
    repeat split; [exact Ha|]. constructor; [discriminate | constructor].
  - unfold callEvery_ptr.
    rewrite <- (callEvery_decision hw interval0 pointerParam0) in Hs.
    rewrite (callEvery_refused _ _ _ Hs).
    exists (set_pointerParam pointerParam0 t), [Result None].
    repeat split; [exact Ha|]. constructor; [discriminate | constructor].
  - exists (useMillis t), []. repeat split; [exact Ha | constructor].
  - exists (useMicros t), []. repeat split; [exact Ha | constructor].
  - exists t, [Remains (remaining hw t)]. repeat split; [exact Ha|].
    constructor; [| constructor]. cbn. apply remaining_inactive. exact Ha.
  - exists (cancel t), []. repeat split. constructor.
  - rewrite loop_inactive by exact Ha. exists t, []. cbn [map].
    repeat split; [exact Ha | constructor].
Qed.

Lemma run_inactive (ops : list Op) :
  forall t, active t = false -> unscheduled ops t ->
  exists t' outs,
    run ops t = Some (t', outs) /\ active t' = false /\ Forall silent outs.
Proof.
  induction ops as [| op ops IH]; intros t Ha Hu.
  - exists t, []. repeat split; [exact Ha | constructor].
  - cbn [unscheduled] in Hu. destruct Hu as [Hs Hrest].
    destruct (exec_inactive op t Ha Hs) as (t1 & o1 & He & Ha1 & Hq1).
    rewrite He in Hrest.
    destruct (IH t1 Ha1 Hrest) as (t2 & o2 & Hr & Ha2 & Hq2).
    exists t2, (o1 ++ o2). cbn [run]. rewrite He, Hr.
    repeat split; [exact Ha2|]. apply Forall_app. split; assumption.
Qed.

(** C7.  [cancel()] clears [active] and touches nothing else; cancelling
    twice is cancelling once.  From a cancelled task, any sequence of calls
    containing no accepted scheduling call runs to completion, whatever the
    tick source reads, without a single invocation of the task function,
    with every [remaining()] equal to -1, and ends on an inactive task.
    [callAt(now + 100)] then [cancel()] then [remaining()] gives -1. *)
Theorem cancel_spec (t : TinyTask) :
  cancel t =
    mkTinyTask (periodic t) false (microseconds t) (pointerParam t)
               (interval t) (timeout t) (taskToCall t)
               (taskToCallTakesPtr t) /\
  cancel (cancel t) = cancel t /\
  (forall ops, unscheduled ops (cancel t) ->
     exists t' outs,
       run ops (cancel t) = Some (t', outs) /\
       active t' = false /\
       Forall silent outs /\
       forall hw, remaining hw t' = -1) /\
  (forall hw hw',
     fst (callAt hw (to_ulong (now hw t + 100)) t) = true /\
     remaining hw' (cancel (snd (callAt hw (to_ulong (now hw t + 100)) t)))
       = -1).
Proof.
  split; [reflexivity|]. split; [reflexivity|]. split.
  - intros ops Hu.
    destruct (run_inactive ops (cancel t) eq_refl Hu) as (t' & outs & Hr & Ha & Hq).
    exists t', outs. repeat split; try assumption.
    intros hw. apply remaining_inactive. exact Ha.
  - intros hw hw'. rewrite callAt_accepts. split; [reflexivity|].
    apply remaining_inactive. reflexivity.
Qed.

Lemma cancel_spec_witness :
  exists t' outs,
    run [OpLoop 0 (ticking 0 1000); OpRemaining (at_ms 5000);
         OpCallEvery (at_ms 5000) (-1); OpUseMicros; OpCancel;
         OpLoop 7 (steady (at_ms 4000000000))] (cancel pending1000)
      = Some (t', outs) /\
    active t' = false /\
    Forall silent outs /\
    forall hw, remaining hw t' = -1.
Proof.
  apply (proj1 (proj2 (proj2 (cancel_spec pending1000)))).
  simpl. repeat split; reflexivity.
Defined.

(** ** The catch-up loop *)

Section CatchUp.

Variable clk : nat -> Ticks.

Lemma advance_fields (j : Z) (t : TinyTask) :
  active (advance j t) = active t /\
  periodic (advance j t) = periodic t /\
  interval (advance j t) = interval t /\
  microseconds (advance j t) = microseconds t.
Proof. repeat split. Qed.

Lemma advance_0 (t : TinyTask) : is_ulong (timeout t) -> advance 0 t = t.
Proof.
  intros H. unfold advance. rewrite Z.mul_0_l, Z.add_0_r, to_ulong_id by exact H.
  destruct t; reflexivity.
Qed.

Lemma advance_add (a b : Z) (t : TinyTask) :
  advance a (advance b t) = advance (a + b) t.
Proof.
  unfold advance, set_timeout.
  cbn [timeout interval periodic active microseconds pointerParam
       taskToCall taskToCallTakesPtr].
  rewrite to_ulong_add_l. f_equal. f_equal. ring.
Qed.

(** One turn of the [while] body. *)
Lemma body_is_advance (t : TinyTask) :
  set_timeout (to_ulong (timeout t + interval t)) t = advance 1 t.
Proof.
  unfold advance. rewrite Z.mul_1_l. reflexivity.
Qed.

Lemma advance_is_ulong (j : Z) (t : TinyTask) : is_ulong (timeout (advance j t)).
Proof. apply to_ulong_range. Qed.

(** The loop is left at the first test that finds the deadline ahead. *)
Lemma catch_up_exits (m : nat) :
  forall (fuel n : nat) (t : TinyTask),
    is_ulong (timeout t) ->
    (m < fuel)%nat ->
    (forall j, (j < m)%nat ->
               remaining (clk (n + j)) (advance (Z.of_nat j) t) <= 0) ->
    0 < remaining (clk (n + m)) (advance (Z.of_nat m) t) ->
    catch_up fuel clk n t = Some (advance (Z.of_nat m) t).
Proof.
  induction m as [| m IH]; intros fuel n t Hd Hf Hspin Hexit.
  - destruct fuel as [| fuel]; [lia|].
    cbn [catch_up]. rewrite Nat.add_0_r in Hexit. cbn [Z.of_nat] in *.
    rewrite advance_0 in * by exact Hd.
    destruct (Z.leb_spec (remaining (clk n) t) 0); [lia | reflexivity].
  - destruct fuel as [| fuel]; [lia|].
    cbn [catch_up].
    pose proof (Hspin 0%nat ltac:(lia)) as H0.
    rewrite Nat.add_0_r in H0. cbn [Z.of_nat] in H0.
    rewrite advance_0 in H0 by exact Hd.
    destruct (Z.leb_spec (remaining (clk n) t) 0); [| lia].
    rewrite body_is_advance.
    rewrite (IH fuel (S n) (advance 1 t)).
    + rewrite advance_add. do 2 f_equal. lia.
    + apply advance_is_ulong.
    + lia.
    + intros j Hj. rewrite advance_add.
      replace (S n + j)%nat with (n + S j)%nat by lia.
      replace (Z.of_nat j + 1) with (Z.of_nat (S j)) by lia.
      apply Hspin. lia.
    + rewrite advance_add.
      replace (S n + m)%nat with (n + S m)%nat by lia.
      replace (Z.of_nat m + 1) with (Z.of_nat (S m)) by lia.
      exact Hexit.
Qed.

(** As long as every test finds the deadline not ahead, the loop is not
    left. *)
Lemma catch_up_spins (fuel : nat) :
  forall (n : nat) (t : TinyTask),
    is_ulong (timeout t) ->
    (forall j, (j < fuel)%nat ->
               remaining (clk (n + j)) (advance (Z.of_nat j) t) <= 0) ->
    catch_up fuel clk n t = None.
Proof.
  induction fuel as [| fuel IH]; intros n t Hd Hspin; [reflexivity|].
  cbn [catch_up].
  pose proof (Hspin 0%nat ltac:(lia)) as H0.
  rewrite Nat.add_0_r in H0. cbn [Z.of_nat] in H0.
  rewrite advance_0 in H0 by exact Hd.
  destruct (Z.leb_spec (remaining (clk n) t) 0); [| lia].
  rewrite body_is_advance. apply IH.
  - apply advance_is_ulong.
  - intros j Hj. rewrite advance_add.
    replace (S n + j)%nat with (n + S j)%nat by lia.
    replace (Z.of_nat j + 1) with (Z.of_nat (S j)) by lia.
    apply Hspin. lia.
Qed.

End CatchUp.

(** Moving the deadline of an active task moves its signed remaining time,
    modulo [2^32]. *)
Lemma remaining_advance (hw : Ticks) (j : Z) (t : TinyTask) :
  active t = true ->
  remaining hw (advance j t) = to_long (remaining hw t + j * interval t).
Proof.
  intros Ha. rewrite !remaining_active by exact Ha.
  unfold ahead, advance, now. cbn [set_timeout timeout microseconds].
  rewrite <- to_long_shift. apply to_long_congr.
  rewrite to_ulong_sub_l. f_equal. ring.
Qed.

Lemma advance_zero_interval (j : Z) (t : TinyTask) :
  interval t = 0 -> is_ulong (timeout t) -> advance j t = t.
Proof.
  intros Hi Hd. unfold advance. rewrite Hi, Z.mul_0_r, Z.add_0_r.
  rewrite to_ulong_id by exact Hd. destruct t; reflexivity.
Qed.

(** While the deadline of an overdue periodic task has been moved by no more
    than one period past the current tick, its remaining time is the plain
    sum. *)
Lemma remaining_advance_exact (hw : Ticks) (j : Z) (t : TinyTask) :
  is_long (interval t) -> active t = true -> 0 < interval t ->
  remaining hw t <= 0 ->
  0 <= j <= (- remaining hw t) / interval t + 1 ->
  remaining hw (advance j t) = remaining hw t + j * interval t.
Proof.
  intros Hi Ha Hpos Hr Hj.
  rewrite remaining_advance by exact Ha. apply to_long_id.
  pose proof (remaining_is_long hw t) as Hl.
  unfold is_long in *. rewrite half_eq in *.
  pose proof (Z.div_mod (- remaining hw t) (interval t) ltac:(lia)) as Hdm.
  pose proof (Z.mod_pos_bound (- remaining hw t) (interval t) Hpos) as Hm.
  nia.
Qed.





(** X10.  Catching up with the tick source moving during the call.  The
    readings may
    differ from one test to the next as long as the original deadline only
    falls further behind and stays within the half window ([remaining()] of
    the task as it was polled does not increase).  The deadline reached is
    then the first [old + k * interval] strictly ahead of the tick read
    last. *)
Lemma periodic_catch_up_moving (clk : nat -> Ticks) (t : TinyTask) :
  wf t -> active t = true -> periodic t = true -> 0 < interval t ->
  remaining (clk 0%nat) t <= 0 ->
  (forall n, remaining (clk (S n)) t <= remaining (clk n) t) ->
  exists k : nat,
    (1 <= k)%nat /\
    (forall fuel, (k < fuel)%nat ->
       loop fuel clk t =
         Some (advance (Z.of_nat k) t, callTask (advance (Z.of_nat k) t))) /\
    0 < remaining (clk (S k)) (advance (Z.of_nat k) t) /\
    (forall j, (j < k)%nat ->
       remaining (clk (S k)) (advance (Z.of_nat j) t) <= 0).
Proof.
  intros [Hi Hd] Ha Hp Hpos H0 Hmono.
  set (R := fun n => remaining (clk n) t).
  assert (Hanti : forall n m, (n <= m)%nat -> R m <= R n).
  { intros n m Hnm. induction Hnm as [| m _ IH]; [lia|].
    specialize (Hmono m). unfold R in *. lia. }
  assert (Hneg : forall n, - half <= R n <= 0).
  { intros n. pose proof (Hanti 0%nat n ltac:(lia)) as Hn.
    pose proof (remaining_is_long (clk n) t) as Hl.
    unfold is_long in Hl. unfold R in *. lia. }
  set (P := fun j : nat => 0 < R (S j) + Z.of_nat j * interval t).
  assert (Hex : exists j, P j).
  { exists (Z.to_nat (half / interval t + 1)). unfold P.
    pose proof (Hneg (S (Z.to_nat (half / interval t + 1)))) as Hn.
    pose proof (Z.mul_succ_div_gt half (interval t) Hpos) as Hgt.
    pose proof (Z.div_pos half (interval t) ltac:(rewrite half_eq; lia) Hpos).
    rewrite Z2Nat.id by lia. unfold Z.succ in Hgt. nia. }
  assert (Hdec : forall j, P j \/ ~ P j).
  { intros j. unfold P. lia. }
  destruct (dec_inh_nat_subset_has_unique_least_element P Hdec Hex)
    as (k & [Hk Hleast] & _).
  assert (Hbefore : forall j, (j < k)%nat -> R (S j) + Z.of_nat j * interval t <= 0).
  { intros j Hj. destruct (Hdec j) as [Hy | Hn]; [| unfold P in Hn; lia].
    specialize (Hleast j Hy). lia. }
  assert (Hk1 : (1 <= k)%nat).
  { destruct k as [| k]; [| lia]. unfold P in Hk.
    pose proof (Hneg 1%nat). cbn [Z.of_nat] in Hk. lia. }
  assert (Hexact : forall n j, (j <= k)%nat -> (j <= n)%nat ->
            remaining (clk (S n)) (advance (Z.of_nat j) t)
            = R (S n) + Z.of_nat j * interval t).
  { intros n j Hjk Hjn. rewrite remaining_advance by exact Ha. fold (R (S n)).
    apply to_long_id. unfold is_long in *.
    pose proof (Hneg (S n)) as Hn. rewrite half_eq in *.
    assert (R (S n) + Z.of_nat j * interval t <= interval t); [| nia].
    destruct j as [| j]; [cbn [Z.of_nat]; lia|].
    pose proof (Hbefore j ltac:(lia)) as Hb.
    pose proof (Hanti (S j) (S n) ltac:(lia)). nia. }
  exists k. split; [exact Hk1|]. split; [| split].
  - intros fuel Hfuel. unfold loop. rewrite Ha, Hp.
    destruct (Z.leb_spec (remaining (clk 0%nat) t) 0); [| lia].
    rewrite (catch_up_exits clk k fuel 1 t Hd Hfuel); [reflexivity | |].
    + intros j Hj. cbn [Nat.add]. rewrite Hexact by lia. apply Hbefore. exact Hj.
    + cbn [Nat.add]. rewrite Hexact by lia. exact Hk.
  - rewrite Hexact by lia. exact Hk.
  - intros j Hj. rewrite Hexact by lia.
    pose proof (Hbefore j Hj). pose proof (Hanti (S j) (S k) ltac:(lia)). lia.
Qed.

(** ** A period of zero *)

Lemma callEvery_zero_state (hw : Ticks) (t0 : TinyTask) :
  let t := snd (callEvery hw 0 t0) in
  active t = true /\ periodic t = true /\ interval t = 0 /\
  is_ulong (timeout t).
Proof.
  rewrite callEvery_accepts by lia. cbn [snd].
  repeat split; try apply to_ulong_range.
Qed.

Lemma of_nat_late : Z.of_nat late = 536870913.
Proof.
  unfold late. rewrite Z2Nat.id; [reflexivity | discriminate].
Qed.

Lemma late_positive : (1 <= late)%nat.
Proof.
  apply Nat2Z.inj_le. rewrite of_nat_late. discriminate.
Qed.

(** With [micros()] moving on 4 ticks per reading from the deadline 1000,
    reading number [2^29 + 1] is the tick [2^31 + 1004], which the signed
    comparison places [2^31 - 4] ticks before the deadline. *)
Lemma late_reading : remaining (ticking 1000 4 late) every0 = 2147483644.
Proof.
  unfold ticking. rewrite of_nat_late. reflexivity.
Qed.

(** C10, as amended.  After [callEvery(0)], a [loop()] call made when the
    task is due adds zero to the deadline for as long as the readings of the
    tick source stay at the deadline or up to [2^31] ticks past it: no
    amount of fuel makes it return while they do, and it never returns if
    the tick source stands still.  It returns, the deadline unchanged and
    the task function called, once a reading lies more than [2^31] ticks
    past the deadline, which [remaining()] takes for a deadline ahead. *)
Theorem zero_interval_loop (hw : Ticks) (t0 : TinyTask) (clk : nat -> Ticks) :
  let t := snd (callEvery hw 0 t0) in
  remaining (clk 0%nat) t <= 0 ->
  (forall fuel,
     (forall n, (1 <= n <= fuel)%nat -> remaining (clk n) t <= 0) ->
     loop fuel clk t = None) /\
  (forall k fuel,
     (1 <= k <= fuel)%nat -> 0 < remaining (clk k) t ->
     loop fuel clk t = Some (t, callTask t)) /\
  (forall fuel, loop fuel (steady (clk 0%nat)) t = None).
Proof.
  intros t Hdue.
  destruct (callEvery_zero_state hw t0) as (Ha & Hp & Hi & Hd).
  fold t in Ha, Hp, Hi, Hd.
  assert (Hfix : forall j, advance j t = t).
  { intros j. apply advance_zero_interval; assumption. }
  assert (Hspin : forall c fuel,
             remaining (c 0%nat) t <= 0 ->
             (forall n, (1 <= n <= fuel)%nat -> remaining (c n) t <= 0) ->
             loop fuel c t = None).
  { intros c fuel H0 Hall. unfold loop. rewrite Ha, Hp.
    destruct (Z.leb_spec (remaining (c 0%nat) t) 0); [| lia].
    rewrite (catch_up_spins c fuel 1 t Hd); [reflexivity|].
    intros j Hj. rewrite Hfix. apply Hall. lia. }
  split; [| split].
  - intros fuel Hall. apply Hspin; assumption.
  - intros k fuel Hk Hexit. unfold loop. rewrite Ha, Hp.
    destruct (Z.leb_spec (remaining (clk 0%nat) t) 0); [| lia].
    (* the first reading from number 1 on that finds the deadline ahead *)
    assert (Hfirst : forall d n, (n + d = k)%nat -> (d < fuel + 1 - n)%nat ->
               catch_up (fuel + 1 - n) clk n t = Some t).
    { induction d as [| d IH]; intros n Hn Hf.
      - destruct (fuel + 1 - n)%nat as [| f] eqn:E; [lia|]. cbn [catch_up].
        replace n with k by lia.
        destruct (Z.leb_spec (remaining (clk k) t) 0); [lia | reflexivity].
      - destruct (fuel + 1 - n)%nat as [| f] eqn:E; [lia|]. cbn [catch_up].
        destruct (Z.leb_spec (remaining (clk n) t) 0); [| reflexivity].
        rewrite body_is_advance, Hfix.
        replace f with (fuel + 1 - S n)%nat by lia.
        apply IH; lia. }
    specialize (Hfirst (k - 1)%nat 1%nat ltac:(lia) ltac:(lia)).
    replace (fuel + 1 - 1)%nat with fuel in Hfirst by lia.
    rewrite Hfirst. reflexivity.
  - intros fuel. apply Hspin; unfold steady; intros; exact Hdue.
Qed.

Lemma zero_interval_loop_witness :
  loop 3 (ticking 1000 1073741824) every0 = Some (every0, callTask every0).
Proof.
  refine (proj1 (proj2 (zero_interval_loop (mkTicks 1 1000) (useMicros blink)
                          (ticking 1000 1073741824) _)) 3%nat 3%nat _ _).
  - vm_compute. discriminate.
  - lia.
  - vm_compute. reflexivity.
Defined.

(** C10, as stated, fails: after [callEvery(0)] on the microsecond time
    base, a [loop()] call entered at the deadline, with [micros()] 4 ticks
    further at each reading, returns, and has called the task function. *)
Lemma zero_interval_loop_returns :
  every0 = snd (callEvery (mkTicks 1 1000) 0 (useMicros blink)) /\
  remaining (ticking 1000 4 0%nat) every0 = 0 /\
  loop late (ticking 1000 4) every0 = Some (every0, [Call 1 every0]).
Proof.
  split; [reflexivity|]. split; [reflexivity|].
  change [Call 1 every0] with (callTask every0).
  refine (proj1 (proj2 (zero_interval_loop (mkTicks 1 1000) (useMicros blink)
                          (ticking 1000 4) _)) late late _ _).
  - vm_compute. discriminate.
  - pose proof late_positive. lia.
  - change (0 < remaining (ticking 1000 4 late) every0).
    rewrite late_reading. reflexivity.
Qed.

(** * Further properties *)

(** ** What a call of [loop()] can do *)

Lemma catch_up_frame (fuel : nat) :
  forall (clk : nat -> Ticks) (n : nat) (t t' : TinyTask),
    catch_up fuel clk n t = Some t' ->
    periodic t' = periodic t /\ active t' = active t /\
    microseconds t' = microseconds t /\ pointerParam t' = pointerParam t /\
    interval t' = interval t /\ taskToCall t' = taskToCall t /\
    taskToCallTakesPtr t' = taskToCallTakesPtr t.
Proof.
  induction fuel as [| fuel IH]; intros clk n t t' H; [discriminate|].
  cbn [catch_up] in H.
  destruct (remaining (clk n) t <=? 0).
  - apply IH in H. cbn in H. exact H.
  - injection H as <-. repeat split.
Qed.

(** The deadline only moves by whole intervals, and the loop is left on a
    test that found it ahead. *)
Lemma catch_up_grid (fuel : nat) :
  forall (clk : nat -> Ticks) (n : nat) (t t' : TinyTask),
    is_ulong (timeout t) ->
    catch_up fuel clk n t = Some t' ->
    exists m : nat,
      (m < fuel)%nat /\ t' = advance (Z.of_nat m) t /\
      0 < remaining (clk (n + m)%nat) t'.
Proof.
  induction fuel as [| fuel IH]; intros clk n t t' Hd H; [discriminate|].
  cbn [catch_up] in H.
  destruct (Z.leb_spec (remaining (clk n) t) 0) as [Hle | Hgt].
  - rewrite body_is_advance in H.
    destruct (IH clk (S n) (advance 1 t) t' (advance_is_ulong 1 t) H)
      as (m & Hm & -> & Hexit).
    exists (S m). split; [lia|]. split.
    + rewrite advance_add. f_equal. lia.
    + replace (n + S m)%nat with (S n + m)%nat by lia. exact Hexit.
  - injection H as <-. exists 0%nat. split; [lia|]. split.
    + symmetry. apply advance_0. exact Hd.
    + rewrite Nat.add_0_r. exact Hgt.
Qed.

Lemma callTask_short (t : TinyTask) : (length (callTask t) <= 1)%nat.
Proof.
  unfold callTask.
  destruct (negb (taskToCall t =? NULL));
    [| destruct (negb (taskToCallTakesPtr t =? NULL))]; cbn; lia.
Qed.

(** Whatever the tick source reads, [loop()] writes [timeout] or [active]
    and nothing else, never activates a task, and calls the task function
    at most once, on the object as it leaves it. *)
Lemma loop_frame (fuel : nat) (clk : nat -> Ticks) (t t' : TinyTask)
  (evs : list Event) :
  loop fuel clk t = Some (t', evs) ->
  (evs = [] \/ evs = callTask t') /\
  periodic t' = periodic t /\ microseconds t' = microseconds t /\
  pointerParam t' = pointerParam t /\ interval t' = interval t /\
  taskToCall t' = taskToCall t /\
  taskToCallTakesPtr t' = taskToCallTakesPtr t /\
  (active t' = true -> active t = true).
Proof.
  unfold loop. intros H.
  destruct (active t) eqn:Ha.
  - destruct (remaining (clk 0%nat) t <=? 0).
    + destruct (periodic t) eqn:Hp.
      * destruct (catch_up fuel clk 1 t) as [t1 |] eqn:Hc; [| discriminate].
        injection H as <- <-.
        destruct (catch_up_frame _ _ _ _ _ Hc) as (? & ? & ? & ? & ? & ? & ?).
        split; [right; reflexivity|]. repeat split; congruence.
      * injection H as <- <-.
        split; [right; reflexivity|]. repeat split; auto; congruence.
    + injection H as <- <-. split; [left; reflexivity|]. repeat split; auto; congruence.
  - injection H as <- <-. split; [left; reflexivity|]. repeat split; auto; congruence.
Qed.

(** X1.  For arbitrary readings of the tick source, a [loop()] call that
    returns has called the task function at most once, handing it the
    object as the call leaves it; it has not changed the time base, the
    stored pointer, the interval, the periodic flag or the task functions,
    and has not activated the task.  The deadline of a one-shot task is
    untouched; that of a periodic task has moved by a whole number of
    intervals (modulo [2^32]) and the task is as active as before. *)
Theorem loop_outcome (fuel : nat) (clk : nat -> Ticks) (t t' : TinyTask)
  (evs : list Event) :
  is_ulong (timeout t) ->
  loop fuel clk t = Some (t', evs) ->
  (length evs <= 1)%nat /\
  (forall e, In e evs -> seen_by e = t') /\
  periodic t' = periodic t /\ microseconds t' = microseconds t /\
  pointerParam t' = pointerParam t /\ interval t' = interval t /\
  taskToCall t' = taskToCall t /\
  taskToCallTakesPtr t' = taskToCallTakesPtr t /\
  (active t' = true -> active t = true) /\
  (periodic t = false -> timeout t' = timeout t) /\
  (periodic t = true ->
   active t' = active t /\
   exists m : nat,
     (m <= fuel)%nat /\
     timeout t' = to_ulong (timeout t + Z.of_nat m * interval t)).
Proof.
  intros Hd H.
  destruct (loop_frame fuel clk t t' evs H)
    as (Hev & Hp & Hm & Hpp & Hi & Hf & Hg & Hact).
  split; [| split].
  - destruct Hev as [-> | ->]; [cbn; lia | apply callTask_short].
  - intros e He. destruct Hev as [-> | ->]; [destruct He|].
    apply callTask_seen. exact He.
  - repeat (split; [assumption|]).
    assert (Hstay : timeout t = to_ulong (timeout t + Z.of_nat 0 * interval t)).
    { cbn [Z.of_nat]. rewrite Z.mul_0_l, Z.add_0_r, to_ulong_id by exact Hd.
      reflexivity. }
    unfold loop in H. destruct (active t) eqn:Ha.
    + destruct (remaining (clk 0%nat) t <=? 0).
      * destruct (periodic t) eqn:Hper.
        -- destruct (catch_up fuel clk 1 t) as [t1 |] eqn:Hc; [| discriminate].
           injection H as <- <-. split; [discriminate|]. intros _.
           destruct (catch_up_frame _ _ _ _ _ Hc) as (_ & Ha1 & _).
           destruct (catch_up_grid _ _ _ _ _ Hd Hc) as (m & Hlt & -> & _).
           split; [cbn; congruence|]. exists m. split; [lia | reflexivity].
        -- injection H as <- <-. split; [reflexivity | discriminate].
      * injection H as <- <-. split; [reflexivity|]. intros _.
        split; [congruence|]. exists 0%nat. split; [lia | exact Hstay].
    + injection H as <- <-. split; [reflexivity|]. intros _.
      split; [congruence|]. exists 0%nat. split; [lia | exact Hstay].
Qed.

Lemma loop_outcome_witness :
  (length [Call 1 (mkTinyTask true true false 0 250 2250 1 0)] <= 1)%nat.
Proof.
  refine (proj1 (loop_outcome 5 (steady (at_ms 2000))
                   (snd (callEvery (at_ms 1000) 250 blink))
                   (mkTinyTask true true false 0 250 2250 1 0) _ _ _)).
  - vm_compute. split; discriminate || reflexivity.
  - reflexivity.
Defined.

(** ** What a host program can do to the object *)

Lemma callIn_effect (hw : Ticks) (i : Z) (t : TinyTask) :
  let t1 := snd (callIn hw i t) in
  taskToCall t1 = taskToCall t /\
  taskToCallTakesPtr t1 = taskToCallTakesPtr t /\
  interval t1 = interval t /\ pointerParam t1 = pointerParam t /\
  (t1 = t \/ periodic t1 = false).
Proof.
  unfold callIn. destruct (interval t <? 0); [cbn; auto 6|].
  destruct t as [p a [|] pp iv d f g]; cbn; auto 6.
Qed.

Lemma callAt_effect (hw : Ticks) (x : Z) (t : TinyTask) :
  let t1 := snd (callAt hw x t) in
  taskToCall t1 = taskToCall t /\
  taskToCallTakesPtr t1 = taskToCallTakesPtr t /\
  interval t1 = interval t /\ pointerParam t1 = pointerParam t /\
  periodic t1 = false.
Proof.
  rewrite callAt_accepts. cbn. auto 6.
Qed.

Lemma callEvery_effect (hw : Ticks) (i : Z) (t : TinyTask) :
  let t1 := snd (callEvery hw i t) in
  taskToCall t1 = taskToCall t /\
  taskToCallTakesPtr t1 = taskToCallTakesPtr t /\
  pointerParam t1 = pointerParam t /\
  (t1 = t \/ (0 <= i /\ interval t1 = i)).
Proof.
  unfold callEvery. destruct (Z.ltb_spec i 0); [cbn; auto 6|].
  destruct t as [p a [|] pp iv d f g]; cbn; auto 6.
Qed.

(** One member call: the task functions stay, the interval stays or becomes
    a non-negative one, an active periodic task comes from an accepted
    [callEvery] or was one already, and the task function is called on the
    object as the call leaves it. *)
Lemma exec_effect (op : Op) (t t' : TinyTask) (o : list Out) :
  exec op t = Some (t', o) ->
  taskToCall t' = taskToCall t /\
  taskToCallTakesPtr t' = taskToCallTakesPtr t /\
  (interval t' = interval t \/ 0 <= interval t') /\
  (active t' = true -> periodic t' = true ->
   0 <= interval t' \/
   (active t = true /\ periodic t = true /\ interval t' = interval t)) /\
  (forall e, In (Fired e) o -> In e (callTask t')).
Proof.
  intros H.
  assert (Hnone : forall (b : option bool) e, ~ In (Fired e) [Result b]).
  { intros b e [E | []]. discriminate. }
  destruct op; cbn [exec] in H;
    unfold callIn_ptr, callAt_ptr, callEvery_ptr in H.
  - pose proof (callIn_effect hw interval0 t) as (Hf & Hg & Hi & _ & Hs).
    destruct (callIn hw interval0 t) as [b t1]. cbn [snd] in *.
    injection H as <- <-. repeat split; auto.
    + intros Ha Hp. destruct Hs as [-> | Hs]; [auto | congruence].
    + intros e He. destruct (Hnone _ _ He).
  - pose proof (callIn_effect hw interval0 (set_pointerParam pointerParam0 t))
      as (Hf & Hg & Hi & _ & Hs).
    destruct (callIn hw interval0 (set_pointerParam pointerParam0 t)) as [b t1].
    cbn [snd] in *. injection H as <- <-. repeat split; auto.
    + intros Ha Hp. destruct Hs as [-> | Hs]; [auto | congruence].
    + intros e He. destruct (Hnone _ _ He).
  - pose proof (callAt_effect hw futureTime t) as (Hf & Hg & Hi & _ & Hs).
    destruct (callAt hw futureTime t) as [b t1]. cbn [snd] in *.
    injection H as <- <-. repeat split; auto.
    + intros Ha Hp. congruence.
    + intros e He. destruct (Hnone _ _ He).
  - pose proof (callAt_effect hw futureTime (set_pointerParam pointerParam0 t))
      as (Hf & Hg & Hi & _ & Hs).
    destruct (callAt hw futureTime (set_pointerParam pointerParam0 t)) as [b t1].
    cbn [snd] in *. injection H as <- <-. repeat split; auto.
    + intros Ha Hp. congruence.
    + intros e He. destruct (Hnone _ _ He).
  - pose proof (callEvery_effect hw interval0 t) as (Hf & Hg & _ & Hs).
    destruct (callEvery hw interval0 t) as [b t1]. cbn [snd] in *.
    injection H as <- <-. repeat split; auto.
    + destruct Hs as [-> | [Hi ->]]; auto.
    + intros Ha Hp. destruct Hs as [-> | [Hi E]]; [auto | left; lia].
    + intros e He. destruct (Hnone _ _ He).
  - pose proof (callEvery_effect hw interval0 (set_pointerParam pointerParam0 t))
      as (Hf & Hg & _ & Hs).
    destruct (callEvery hw interval0 (set_pointerParam pointerParam0 t))
      as [b t1].
    cbn [snd] in *. injection H as <- <-. repeat split; auto.
    + destruct Hs as [-> | [Hi ->]]; auto.
    + intros Ha Hp. destruct Hs as [-> | [Hi E]]; [auto | left; lia].
    + intros e He. destruct (Hnone _ _ He).
  - injection H as <- <-. repeat split; auto. intros e [].
  - injection H as <- <-. repeat split; auto. intros e [].
  - injection H as <- <-. repeat split; auto.
    intros e [E | []]. discriminate.
  - injection H as <- <-. repeat split; auto.
    + intros Ha. discriminate.
    + intros e [].
  - destruct (loop fuel clk t) as [[t1 evs] |] eqn:E; [| discriminate].
    injection H as <- <-.
    destruct (loop_frame _ _ _ _ _ E) as (Hev & Hp & _ & _ & Hi & Hf & Hg & Ha).
    repeat split; auto.
    + intros Ha' Hp'. right. repeat split; auto. congruence.
    + intros e He. apply in_map_iff in He. destruct He as (e' & Ee & He).
      injection Ee as ->. destruct Hev as [-> | ->]; [destruct He | exact He].
Qed.

Lemma run_effect (ops : list Op) :
  forall (t t' : TinyTask) (outs : list Out),
    run ops t = Some (t', outs) ->
    taskToCall t' = taskToCall t /\
    taskToCallTakesPtr t' = taskToCallTakesPtr t /\
    (interval t' = interval t \/ 0 <= interval t') /\
    ((active t = true -> periodic t = true -> 0 <= interval t) ->
     active t' = true -> periodic t' = true -> 0 <= interval t') /\
    (forall e, In (Fired e) outs ->
       taskToCall (seen_by e) = taskToCall t /\
       taskToCallTakesPtr (seen_by e) = taskToCallTakesPtr t /\
       In e (callTask (seen_by e))).
Proof.
  induction ops as [| op ops IH]; intros t t' outs H.
  - injection H as <- <-.
    split; [reflexivity|]. split; [reflexivity|]. split; [left; reflexivity|].
    split; [auto|]. intros e [].
  - cbn [run] in H.
    destruct (exec op t) as [[t1 o1] |] eqn:E1; [| discriminate].
    destruct (run ops t1) as [[t2 o2] |] eqn:E2; [| discriminate].
    injection H as <- <-.
    destruct (exec_effect _ _ _ _ E1) as (Hf1 & Hg1 & Hi1 & Hp1 & He1).
    destruct (IH _ _ _ E2) as (Hf2 & Hg2 & Hi2 & Hp2 & He2).
    split; [congruence|]. split; [congruence|]. split; [| split].
    + destruct Hi2 as [Hi2 | Hi2]; [| auto].
      destruct Hi1 as [Hi1 | Hi1]; [left; congruence | right; lia].
    + intros H0. apply Hp2. intros Ha Hp.
      destruct (Hp1 Ha Hp) as [Hok | (Ha0 & Hp0 & Hi0)]; [exact Hok|].
      rewrite Hi0. apply H0; assumption.
    + intros e He. apply in_app_or in He. destruct He as [He | He].
      * specialize (He1 e He). rewrite (callTask_seen _ _ He1).
        repeat split; assumption.
      * destruct (He2 e He) as (Hf & Hg & Hin).
        repeat split; [congruence | congruence | exact Hin].
Qed.

(** X2.  The task function given to the constructor is the only thing this
    object ever calls.  Through any sequence of member calls the two
    function members keep their constructed values; an object built on a
    zero-argument function calls that function and nothing else, an object
    built on a pointer-taking function calls it with the [pointerParam] the
    object holds at that moment; an object built on a null function calls
    nothing. *)
Theorem task_function_bound_for_life (raw : TinyTask) (fn : Z)
  (ops : list Op) (t' : TinyTask) (outs : list Out) :
  (run ops (TinyTask_new raw fn) = Some (t', outs) ->
   taskToCall t' = fn /\ taskToCallTakesPtr t' = NULL /\
   forall e, In (Fired e) outs -> fn <> NULL /\ e = Call fn (seen_by e)) /\
  (run ops (TinyTask_newTakesPtr raw fn) = Some (t', outs) ->
   taskToCall t' = NULL /\ taskToCallTakesPtr t' = fn /\
   forall e, In (Fired e) outs ->
     fn <> NULL /\
     e = CallTakesPtr fn (pointerParam (seen_by e)) (seen_by e)).
Proof.
  split; intros H; destruct (run_effect _ _ _ _ H) as (Hf & Hg & _ & _ & He);
    cbn [TinyTask_new TinyTask_newTakesPtr taskToCall taskToCallTakesPtr] in *;
    (split; [exact Hf|]); (split; [exact Hg|]);
    intros e Hin; destruct (He e Hin) as (Hfe & Hge & Hc);
    unfold callTask in Hc; rewrite Hfe, Hge in Hc.
  - destruct (Z.eqb_spec fn NULL) as [E | E]; cbn in Hc.
    + destruct Hc.
    + destruct Hc as [<- | []]. split; [exact E | reflexivity].
  - cbn in Hc. destruct (Z.eqb_spec fn NULL) as [E | E]; cbn in Hc.
    + destruct Hc.
    + destruct Hc as [<- | []]. split; [exact E | reflexivity].
Qed.

Lemma task_function_bound_for_life_witness :
  taskToCall (mkTinyTask false false false 0 0 1250 1 0) = 1 /\
  taskToCallTakesPtr (mkTinyTask false false false 0 0 1250 1 0) = NULL /\
  forall e,
    In (Fired e)
       [Result (Some true);
        Fired (Call 1 (mkTinyTask false false false 0 0 1250 1 0))] ->
    1 <> NULL /\ e = Call 1 (seen_by e).
Proof.
  refine (proj1 (task_function_bound_for_life zeroed 1
                   [OpCallIn (at_ms 1000) 250; OpLoop 1 (steady (at_ms 1250))]
                   _ _) _).
  reflexivity.
Defined.

(** X3.  [callIn] looks at the stored interval, and member calls only ever
    store a non-negative one.  So on an object whose [interval] cell was
    non-negative when it was built (as in static storage), [callIn] is
    accepted after any sequence of member calls, for every delay, negative
    ones included, and arms the task for [now + delay]. *)
Theorem callIn_never_refused (ops : list Op) (t t' : TinyTask)
  (outs : list Out) (hw : Ticks) (delay : Z) :
  0 <= interval t ->
  run ops t = Some (t', outs) ->
  0 <= interval t' /\
  fst (callIn hw delay t') = true /\
  timeout (snd (callIn hw delay t')) = to_ulong (now hw t' + delay) /\
  active (snd (callIn hw delay t')) = true /\
  periodic (snd (callIn hw delay t')) = false.
Proof.
  intros Hi H. destruct (run_effect _ _ _ _ H) as (_ & _ & Hint & _).
  assert (Hi' : 0 <= interval t') by (destruct Hint; lia).
  split; [exact Hi'|]. rewrite callIn_accepts by exact Hi'.
  repeat split.
Qed.

Lemma callIn_never_refused_witness :
  fst (callIn (at_ms 2000) (-5)
         (mkTinyTask true false false 0 250 2250 1 0)) = true.
Proof.
  refine (proj1 (proj2 (callIn_never_refused
            [OpCallEvery (at_ms 1000) 250; OpLoop 5 (steady (at_ms 2000));
             OpCancel]
            blink _ _ (at_ms 2000) (-5) _ _))).
  - simpl. lia.
  - reflexivity.
Defined.

(** X4.  An object is inactive when built, whatever its storage held, and
    from an inactive object any sequence of member calls that leaves the
    task active and periodic leaves it with a non-negative interval, also
    when the [interval] cell held a negative value at construction. *)
Theorem periodic_interval_nonnegative (ops : list Op) (t t' : TinyTask)
  (outs : list Out) :
  active t = false ->
  run ops t = Some (t', outs) ->
  active t' = true -> periodic t' = true ->
  0 <= interval t'.
Proof.
  intros Ha H Ha' Hp'.
  destruct (run_effect _ _ _ _ H) as (_ & _ & _ & Hinv & _).
  apply Hinv; try assumption. intros Hat. congruence.
Qed.

Lemma periodic_interval_nonnegative_witness :
  0 <= interval (mkTinyTask true true true 7 250 1250 0 1).
Proof.
  refine (periodic_interval_nonnegative
            [OpUseMicros; OpCallEveryPtr (at_us 1000) 250 7;
             OpCallEvery (at_us 1100) (-3)]
            (TinyTask_newTakesPtr (mkTinyTask true true true 9 (-1) 5 3 3) 1)
            _ _ _ _ _ _).
  - reflexivity.
  - reflexivity.
  - reflexivity.
  - reflexivity.
Defined.

(** X5.  A task that was never scheduled never fires.  On a freshly built
    object of either kind, whatever the storage held, any sequence of
    member calls without an accepted scheduling call runs to its end,
    calls no task function, reads [remaining()] as -1 throughout and
    leaves the task inactive. *)
Theorem never_scheduled_never_fires (raw : TinyTask) (fn : Z)
  (ops : list Op) :
  (unscheduled ops (TinyTask_new raw fn) ->
   exists t' outs,
     run ops (TinyTask_new raw fn) = Some (t', outs) /\
     active t' = false /\ Forall silent outs /\ fired outs = 0%nat) /\
  (unscheduled ops (TinyTask_newTakesPtr raw fn) ->
   exists t' outs,
     run ops (TinyTask_newTakesPtr raw fn) = Some (t', outs) /\
     active t' = false /\ Forall silent outs /\ fired outs = 0%nat).
Proof.
  assert (Hquiet : forall outs, Forall silent outs -> fired outs = 0%nat).
  { induction 1 as [| o outs Ho _ IH]; [reflexivity|].
    destruct o; cbn in *; [contradiction | exact IH | exact IH]. }
  split; intros Hu.
  - destruct (run_inactive ops (TinyTask_new raw fn) eq_refl Hu)
      as (t' & outs & Hr & Ha & Hs).
    exists t', outs. auto.
  - destruct (run_inactive ops (TinyTask_newTakesPtr raw fn) eq_refl Hu)
      as (t' & outs & Hr & Ha & Hs).
    exists t', outs. auto.
Qed.

Lemma never_scheduled_never_fires_witness :
  exists t' outs,
    run [OpLoop 0 (ticking 0 1000); OpRemaining (at_ms 5000);
         OpCallEveryPtr (at_ms 5000) (-1) 9; OpLoop 3 (steady (at_ms 7))]
        (TinyTask_newTakesPtr (mkTinyTask true true true 9 5 5 3 3) 1)
      = Some (t', outs) /\
    active t' = false /\ Forall silent outs /\ fired outs = 0%nat.
Proof.
  apply (proj2 (never_scheduled_never_fires
                  (mkTinyTask true true true 9 5 5 3 3) 1 _)).
  simpl. repeat split; reflexivity.
Defined.

(** ** Scheduling and the wrapping counter *)

Lemma to_long_sub (a b : Z) : to_long (to_ulong a - to_ulong b) = to_long (a - b).
Proof.
  apply to_long_congr. unfold to_ulong. symmetry. apply Zminus_mod.
Qed.

Lemma to_long_wrap (z : Z) : to_long (z + modulus) = to_long z.
Proof.
  apply to_long_congr. unfold to_ulong.
  replace (z + modulus) with (z + 1 * modulus) by ring.
  apply Z_mod_plus_full.
Qed.

(** [remaining()] read [e] ticks after an accepted [callIn(d)]. *)
Lemma remaining_after_callIn (hw hw' : Ticks) (d e : Z) (t : TinyTask) :
  0 <= interval t ->
  now hw' t = to_ulong (now hw t + e) ->
  remaining hw' (snd (callIn hw d t)) = to_long (d - e).
Proof.
  intros Hi Hnow. rewrite callIn_accepts by exact Hi. cbn [snd].
  rewrite remaining_active by reflexivity.
  unfold ahead. cbn [timeout].
  replace (now hw' _) with (now hw' t) by reflexivity.
  rewrite Hnow, to_long_sub. f_equal. ring.
Qed.

(** X6.  Scheduling and reading back agree across the wrap of the counter.
    [e] ticks after a scheduling call for [d] ticks ahead ([callIn(d)] when
    accepted, [callEvery(d)] for [d >= 0], [callAt(now + d)]),
    [remaining()] is exactly [d - e], whatever the counter value and
    whether or not [now + d] wrapped, as long as [d - e] is a [long]. *)
Theorem schedule_then_remaining (hw hw' : Ticks) (d e : Z) (t : TinyTask) :
  now hw' t = to_ulong (now hw t + e) ->
  - half <= d - e < half ->
  (0 <= interval t -> remaining hw' (snd (callIn hw d t)) = d - e) /\
  (0 <= d -> remaining hw' (snd (callEvery hw d t)) = d - e) /\
  remaining hw' (snd (callAt hw (to_ulong (now hw t + d)) t)) = d - e.
Proof.
  intros Hnow Hrange.
  assert (Hval : to_long (to_ulong (now hw t + d) - now hw' t) = d - e).
  { rewrite Hnow, to_long_sub.
    replace (now hw t + d - (now hw t + e)) with (d - e) by ring.
    apply to_long_id. exact Hrange. }
  split; [| split].
  - intros Hi. rewrite remaining_after_callIn with (e := e) by assumption.
    apply to_long_id. exact Hrange.
  - intros Hd. rewrite callEvery_accepts by exact Hd. cbn [snd].
    rewrite remaining_active by reflexivity. exact Hval.
  - rewrite callAt_accepts. cbn [snd].
    rewrite remaining_active by reflexivity. exact Hval.
Qed.

Lemma schedule_then_remaining_witness :
  remaining (mkTicks 3 0) (snd (callIn (mkTicks 4294967291 0) 10 blink)) = 2.
Proof.
  refine (proj1 (schedule_then_remaining (mkTicks 4294967291 0) (mkTicks 3 0)
                   10 8 blink _ _) _).
  - reflexivity.
  - vm_compute. split; discriminate || reflexivity.
  - simpl. lia.
Defined.

(** X7.  When a one-shot task fires.  After an accepted [callIn(d)] with
    [0 <= d < 2^31], a [loop()] call whose first reading is [e] ticks later
    does nothing while [e < d]; fires and deactivates the task for
    [d <= e <= d + 2^31], across a wrap of the counter as well; and does
    nothing again, the task staying pending, once more than [2^31] ticks
    have gone by since the deadline. *)
Theorem one_shot_firing_window (hw : Ticks) (d e : Z) (t : TinyTask)
  (fuel : nat) (clk : nat -> Ticks) :
  0 <= interval t -> 0 <= d < half -> 0 <= e < modulus ->
  now (clk 0%nat) t = to_ulong (now hw t + e) ->
  let t1 := snd (callIn hw d t) in
  (e < d -> loop fuel clk t1 = Some (t1, [])) /\
  (d <= e <= d + half ->
   loop fuel clk t1 = Some (cancel t1, callTask (cancel t1)) /\
   active (cancel t1) = false) /\
  (d + half < e -> loop fuel clk t1 = Some (t1, []) /\ active t1 = true).
Proof.
  intros Hi Hd He Hnow t1.
  pose proof (remaining_after_callIn hw (clk 0%nat) d e t Hi Hnow) as Hr.
  fold t1 in Hr.
  assert (Ha : active t1 = true /\ periodic t1 = false).
  { unfold t1. rewrite callIn_accepts by exact Hi. split; reflexivity. }
  destruct Ha as [Ha Hp].
  rewrite half_eq, modulus_eq in *.
  split; [| split].
  - intros Hlt. apply loop_not_due. rewrite Hr, to_long_id; [lia|].
    unfold is_long. rewrite half_eq. lia.
  - intros Hwin. split; [| reflexivity].
    apply loop_one_shot; try assumption. rewrite Hr, to_long_id; [lia|].
    unfold is_long. rewrite half_eq. lia.
  - intros Hlate. split; [| exact Ha].
    apply loop_not_due. rewrite Hr, <- to_long_wrap, to_long_id.
    + rewrite modulus_eq. lia.
    + unfold is_long. rewrite half_eq, modulus_eq. lia.
Qed.

Lemma one_shot_firing_window_witness :
  loop 0 (steady (mkTicks 5 0))
       (snd (callIn (mkTicks 4294967291 0) 10 blink)) =
  Some (cancel (snd (callIn (mkTicks 4294967291 0) 10 blink)),
        callTask (cancel (snd (callIn (mkTicks 4294967291 0) 10 blink)))).
Proof.
  refine (proj1 (proj1 (proj2 (one_shot_firing_window (mkTicks 4294967291 0)
            10 10 blink 0 (steady (mkTicks 5 0)) _ _ _ _)) _)).
  - simpl. lia.
  - vm_compute. split; discriminate || reflexivity.
  - vm_compute. split; discriminate || reflexivity.
  - reflexivity.
  - rewrite half_eq. lia.
Defined.

(** ** One-shot tasks *)

Lemma fired_app (o1 o2 : list Out) : fired (o1 ++ o2) = (fired o1 + fired o2)%nat.
Proof.
  induction o1 as [| o o1 IH]; [reflexivity|].
  destruct o; cbn; rewrite IH; reflexivity.
Qed.

Lemma fired_map (evs : list Event) : fired (map Fired evs) = length evs.
Proof.
  induction evs as [| e evs IH]; [reflexivity|]. cbn. rewrite IH. reflexivity.
Qed.

Lemma fired_silent (outs : list Out) : Forall silent outs -> fired outs = 0%nat.
Proof.
  induction 1 as [| o outs Ho _ IH]; [reflexivity|].
  destruct o; cbn in *; [contradiction | exact IH | exact IH].
Qed.

(** One member call on a one-shot task, other than an accepted scheduling
    call: the task stays one-shot, and if the task function is called the
    task is inactive afterwards. *)
Lemma exec_one_shot (op : Op) (t : TinyTask) :
  periodic t = false -> schedules op t = false ->
  exists t1 o1,
    exec op t = Some (t1, o1) /\ periodic t1 = false /\
    (fired o1 = 0%nat \/ (fired o1 = 1%nat /\ active t1 = false)).
Proof.
  intros Hp Hs.
  assert (Hquiet : forall s o,
             periodic s = false -> fired o = 0%nat ->
             exists t1 o1,
               Some (s, o) = Some (t1, o1) /\ periodic t1 = false /\
               (fired o1 = 0%nat \/ (fired o1 = 1%nat /\ active t1 = false))).
  { intros s o Hps Hfo. exists s, o. auto. }
  destruct op; cbn [exec schedules] in *.
  - rewrite (callIn_refused _ _ _ Hs). apply Hquiet; auto.
  - unfold callIn_ptr.
    rewrite <- (callIn_decision hw interval0 pointerParam0) in Hs.
    rewrite (callIn_refused _ _ _ Hs). apply Hquiet; auto.
  - rewrite callAt_accepts in Hs. discriminate.
  - rewrite callAt_accepts in Hs. discriminate.
  - rewrite (callEvery_refused _ _ _ Hs). apply Hquiet; auto.
  - unfold callEvery_ptr.
    rewrite <- (callEvery_decision hw interval0 pointerParam0) in Hs.
    rewrite (callEvery_refused _ _ _ Hs). apply Hquiet; auto.
  - apply Hquiet; auto.
  - apply Hquiet; auto.
  - apply Hquiet; auto.
  - apply Hquiet; auto.
  - destruct (active t) eqn:Ha.
    + destruct (Z_le_gt_dec (remaining (clk 0%nat) t) 0) as [Hdue | Hnot].
      * rewrite loop_one_shot by assumption.
        exists (set_active false t), (map Fired (callTask (set_active false t))).
        split; [reflexivity|]. split; [exact Hp|]. rewrite fired_map.
        pose proof (callTask_short (set_active false t)).
        destruct (length (callTask (set_active false t))) as [| [| n]];
          [left; reflexivity | right; split; reflexivity | lia].
      * rewrite loop_not_due by lia. apply Hquiet; auto.
    + rewrite loop_inactive by exact Ha. apply Hquiet; auto.
Qed.

(** X8.  A one-shot task fires at most once.  From a task that is not
    periodic, any sequence of member calls without an accepted scheduling
    call runs to its end whatever the tick source reads, calls the task
    function at most once in all, and if it did, leaves the task
    inactive. *)
Theorem one_shot_fires_at_most_once (ops : list Op) :
  forall t : TinyTask,
    periodic t = false -> unscheduled ops t ->
    exists t' outs,
      run ops t = Some (t', outs) /\
      (fired outs <= 1)%nat /\
      (fired outs = 1%nat -> active t' = false).
Proof.
  induction ops as [| op ops IH]; intros t Hp Hu.
  - exists t, []. cbn. repeat split; [lia | discriminate].
  - cbn [unscheduled] in Hu. destruct Hu as [Hs Hrest].
    destruct (exec_one_shot op t Hp Hs) as (t1 & o1 & He & Hp1 & Hf).
    rewrite He in Hrest. cbn [run]. rewrite He.
    destruct Hf as [Hf | [Hf Ha1]].
    + destruct (IH t1 Hp1 Hrest) as (t2 & o2 & Hr & Hle & Hact).
      rewrite Hr. exists t2, (o1 ++ o2). rewrite fired_app, Hf.
      repeat split; assumption.
    + destruct (run_inactive ops t1 Ha1 Hrest) as (t2 & o2 & Hr & Ha2 & Hq).
      rewrite Hr. exists t2, (o1 ++ o2).
      rewrite fired_app, Hf, (fired_silent _ Hq).
      repeat split; [lia | intros _; exact Ha2].
Qed.

Lemma one_shot_fires_at_most_once_witness :
  exists t' outs,
    run [OpLoop 0 (steady (at_ms 999)); OpLoop 0 (steady (at_ms 1000));
         OpRemaining (at_ms 1001); OpLoop 0 (steady (at_ms 1002));
         OpLoop 9 (ticking 5000000 7)] pending1000
      = Some (t', outs) /\
    (fired outs <= 1)%nat /\
    (fired outs = 1%nat -> active t' = false).
Proof.
  apply one_shot_fires_at_most_once.
  - reflexivity.
  - simpl. repeat split; reflexivity.
Defined.

(** ** The pointer handed to the task function *)

(** X9.  On an object built on a pointer-taking function, the pointer
    handed to that function is the [pointerParam] member at the moment of
    the call: the one given to the latest two-argument scheduling call,
    also when that call was refused ([callEvery(x, q)] with [x < 0] keeps
    the pending schedule and replaces the pointer), and the one already
    stored when the task was scheduled through a one-argument overload. *)
Theorem pointer_of_latest_call (hw : Ticks) (x q : Z) (t t' : TinyTask)
  (fuel : nat) (clk : nat -> Ticks) (evs : list Event) :
  taskToCall t = NULL -> taskToCallTakesPtr t <> NULL ->
  (x < 0 -> snd (callEvery_ptr hw x q t) = set_pointerParam q t) /\
  (loop fuel clk (snd (callIn_ptr hw x q t)) = Some (t', evs) \/
   loop fuel clk (snd (callAt_ptr hw x q t)) = Some (t', evs) \/
   loop fuel clk (snd (callEvery_ptr hw x q t)) = Some (t', evs) ->
   forall e, In e evs -> e = CallTakesPtr (taskToCallTakesPtr t) q t') /\
  (loop fuel clk (snd (callIn hw x t)) = Some (t', evs) \/
   loop fuel clk (snd (callAt hw x t)) = Some (t', evs) \/
   loop fuel clk (snd (callEvery hw x t)) = Some (t', evs) ->
   forall e, In e evs ->
     e = CallTakesPtr (taskToCallTakesPtr t) (pointerParam t) t').
Proof.
  intros Hf Hg.
  assert (Hshape : forall s p,
             taskToCall s = NULL -> taskToCallTakesPtr s = taskToCallTakesPtr t ->
             pointerParam s = p ->
             loop fuel clk s = Some (t', evs) ->
             forall e, In e evs -> e = CallTakesPtr (taskToCallTakesPtr t) p t').
  { intros s p Hsf Hsg Hsp Hl e He.
    destruct (loop_frame _ _ _ _ _ Hl) as (Hev & _ & _ & Hpp & _ & Hf' & Hg' & _).
    destruct Hev as [-> | ->]; [destruct He|].
    unfold callTask in He. rewrite Hf', Hsf, Hg', Hsg in He. cbn in He.
    destruct (Z.eqb_spec (taskToCallTakesPtr t) NULL) as [E | _];
      [contradiction|].
    cbn in He. destruct He as [<- | []]. rewrite Hpp, Hsp. reflexivity. }
  split; [| split].
  - intros Hx. unfold callEvery_ptr. rewrite callEvery_rejects by exact Hx.
    reflexivity.
  - unfold callIn_ptr, callAt_ptr, callEvery_ptr.
    pose proof (callIn_effect hw x (set_pointerParam q t)) as (A1 & A2 & _ & A3 & _).
    pose proof (callAt_effect hw x (set_pointerParam q t)) as (B1 & B2 & _ & B3 & _).
    pose proof (callEvery_effect hw x (set_pointerParam q t)) as (C1 & C2 & C3 & _).
    destruct (callIn hw x (set_pointerParam q t)) as [b1 s1].
    destruct (callAt hw x (set_pointerParam q t)) as [b2 s2].
    destruct (callEvery hw x (set_pointerParam q t)) as [b3 s3].
    cbn [snd] in *. cbn [set_pointerParam taskToCall taskToCallTakesPtr
                         pointerParam] in *.
    intros [Hl | [Hl | Hl]]; eapply Hshape; try exact Hl; congruence.
  - pose proof (callIn_effect hw x t) as (A1 & A2 & _ & A3 & _).
    pose proof (callAt_effect hw x t) as (B1 & B2 & _ & B3 & _).
    pose proof (callEvery_effect hw x t) as (C1 & C2 & C3 & _).
    cbn zeta in *.
    intros [Hl | [Hl | Hl]]; eapply Hshape; try exact Hl; congruence.
Qed.

Lemma pointer_of_latest_call_witness :
  snd (callEvery_ptr (at_us 1200) (-1) 88
         (snd (callEvery_ptr (at_us 1000) 250 77
                 (useMicros (TinyTask_newTakesPtr zeroed 1))))) =
    mkTinyTask true true true 88 250 1250 0 1 /\
  In (CallTakesPtr 1 88 (mkTinyTask true true true 88 250 1500 0 1))
     [CallTakesPtr 1 88 (mkTinyTask true true true 88 250 1500 0 1)].
Proof.
  pose proof (pointer_of_latest_call (at_us 1200) (-1) 88
            (snd (callEvery_ptr (at_us 1000) 250 77
                    (useMicros (TinyTask_newTakesPtr zeroed 1))))
            (mkTinyTask true true true 88 250 1500 0 1)
            3 (steady (at_us 1300))
            [CallTakesPtr 1 88 (mkTinyTask true true true 88 250 1500 0 1)]
            eq_refl ltac:(discriminate)) as (Hrefused & Hlatest & _).
  split.
  - apply Hrefused. lia.
  - left. symmetry. apply Hlatest.
    + right. right. reflexivity.
    + left. reflexivity.
Defined.

(** ** Periodic tasks *)

Lemma periodic_catch_up_moving_witness :
  exists k : nat,
    (1 <= k)%nat /\
    (forall fuel, (k < fuel)%nat ->
       loop fuel settling every250 =
         Some (advance (Z.of_nat k) every250,
               callTask (advance (Z.of_nat k) every250))) /\
    0 < remaining (settling (S k)) (advance (Z.of_nat k) every250) /\
    (forall j, (j < k)%nat ->
       remaining (settling (S k)) (advance (Z.of_nat j) every250) <= 0).
Proof.
  apply periodic_catch_up_moving.
  - split; vm_compute; split; discriminate || reflexivity.
  - reflexivity.
  - reflexivity.
  - simpl. lia.
  - vm_compute. discriminate.
  - intros n. destruct n as [| [| [| n]]];
      [vm_compute; discriminate .. |].
    unfold settling. cbn [Nat.min]. apply Z.le_refl.
Defined.

(** A poll whose three readings find a periodic task due, the last one
    less than one interval overdue, moves the deadline by exactly one
    interval. *)
Lemma loop_on_time (c : nat -> Ticks) (t : TinyTask) (fuel : nat) :
  wf t -> active t = true -> periodic t = true -> 0 < interval t ->
  remaining (c 0%nat) t <= 0 -> remaining (c 1%nat) t <= 0 ->
  due_within (c 2%nat) t -> (2 <= fuel)%nat ->
  loop fuel c t = Some (advance 1 t, callTask (advance 1 t)).
Proof.
  intros [Hi Hd] Ha Hp Hpos H0 H1 [H2 H2'] Hfuel.
  assert (Hq : 0 <= (- remaining (c 2%nat) t) / interval t).
  { apply Z.div_pos; lia. }
  unfold loop. rewrite Ha, Hp.
  destruct (Z.leb_spec (remaining (c 0%nat) t) 0); [| lia].
  rewrite (catch_up_exits c 1 fuel 1 t Hd); [reflexivity | lia | |].
  - intros j Hj. replace j with 0%nat by lia. cbn [Z.of_nat Nat.add].
    rewrite advance_0 by exact Hd. exact H1.
  - cbn [Z.of_nat Pos.of_succ_nat Nat.add].
    rewrite remaining_advance_exact by (try assumption; lia). lia.
Qed.

(** X11.  Polling jitter does not accumulate, the tick source being free to
    move during the calls.  If in each of [n] successive polls the three
    readings the call makes all find the periodic task due and less than
    one interval overdue, then whatever the exact ticks were, the task
    function has been called [n] times and the deadline stands at the
    original one plus [n] intervals (modulo [2^32]). *)
Theorem periodic_polls_no_drift (clks : list (nat -> Ticks)) :
  forall t : TinyTask,
    wf t -> bound t = true ->
    active t = true -> periodic t = true -> 0 < interval t ->
    on_time clks t ->
    exists outs,
      run (polls 2 clks) t =
        Some (advance (Z.of_nat (length clks)) t, outs) /\
      fired outs = length clks /\
      timeout (advance (Z.of_nat (length clks)) t) =
        to_ulong (timeout t + Z.of_nat (length clks) * interval t).
Proof.
  induction clks as [| c clks IH]; intros t Hwf Hb Ha Hp Hpos Hon.
  - exists []. split; [| split; reflexivity].
    cbn [polls map run length Z.of_nat].
    rewrite advance_0 by (destruct Hwf; assumption). reflexivity.
  - cbn [on_time] in Hon. destruct Hon as [(H0 & H1 & H2) Hrest].
    assert (Hwf1 : wf (advance 1 t)).
    { destruct Hwf as [Hi Hd]. split; [exact Hi | apply advance_is_ulong]. }
    destruct (IH (advance 1 t) Hwf1 Hb Ha Hp Hpos Hrest) as (o2 & Hrun & Hf & _).
    exists (map Fired (callTask (advance 1 t)) ++ o2).
    unfold polls in *. cbn [map run exec].
    rewrite (loop_on_time c t 2 Hwf Ha Hp Hpos (proj2 H0) (proj2 H1) H2)
      by lia.
    rewrite Hrun. rewrite advance_add.
    replace (Z.of_nat (length clks) + 1) with (Z.of_nat (length (c :: clks)))
      by (cbn [length]; lia).
    split; [reflexivity|]. split; [| reflexivity].
    rewrite fired_app, fired_map, Hf, (callTask_bound (advance 1 t) Hb).
    reflexivity.
Qed.

Lemma periodic_polls_no_drift_witness :
  exists outs,
    run (polls 2 [ticking 1250 4; ticking 1620 4; ticking 1751 4]) every250 =
      Some (advance 3 every250, outs) /\
    fired outs = 3%nat /\
    timeout (advance 3 every250) =
      to_ulong (timeout every250 + 3 * interval every250).
Proof.
  apply (periodic_polls_no_drift
           [ticking 1250 4; ticking 1620 4; ticking 1751 4] every250).
  - split; vm_compute; split; discriminate || reflexivity.
  - reflexivity.
  - reflexivity.
  - reflexivity.
  - simpl. lia.
  - simpl. unfold due_within.
    repeat split; vm_compute; discriminate || reflexivity.
Defined.

(** ** Deadlines that are not ahead *)

(** X12.  [callAt] accepts every deadline and arms a one-shot task for it,
    changing nothing but [timeout], [periodic] and [active].  A deadline
    that is not ahead of the current tick (in the past, or [2^31] ticks or
    more ahead) makes the next [loop()] at that tick call the task function
    at once and deactivate the task. *)
Theorem callAt_arms_any_deadline (hw : Ticks) (x : Z) (t : TinyTask) :
  let t1 := snd (callAt hw x t) in
  fst (callAt hw x t) = true /\
  timeout t1 = x /\ periodic t1 = false /\ active t1 = true /\
  microseconds t1 = microseconds t /\ pointerParam t1 = pointerParam t /\
  interval t1 = interval t /\ taskToCall t1 = taskToCall t /\
  taskToCallTakesPtr t1 = taskToCallTakesPtr t /\
  remaining hw t1 = to_long (x - now hw t) /\
  (to_long (x - now hw t) <= 0 ->
   forall fuel clk, clk 0%nat = hw ->
     loop fuel clk t1 = Some (cancel t1, callTask (cancel t1))).
Proof.
  rewrite callAt_accepts. cbn [fst snd].
  repeat (split; [reflexivity|]).
  assert (Hr : remaining hw
                 (set_active true (set_periodic false (set_timeout x t)))
               = to_long (x - now hw t)).
  { rewrite remaining_active by reflexivity. reflexivity. }
  split; [exact Hr|].
  intros Hpast fuel clk Hclk. apply loop_one_shot; [reflexivity .. |].
  rewrite Hclk, Hr. exact Hpast.
Qed.

Lemma callAt_arms_any_deadline_witness :
  loop 0 (steady (at_ms 1000)) (snd (callAt (at_ms 1000) 999 blink)) =
  Some (cancel (snd (callAt (at_ms 1000) 999 blink)),
        callTask (cancel (snd (callAt (at_ms 1000) 999 blink)))).
Proof.
  refine (proj2 (proj2 (proj2 (proj2 (proj2 (proj2 (proj2 (proj2 (proj2 (proj2
            (callAt_arms_any_deadline (at_ms 1000) 999 blink))))))))))
            _ 0%nat (steady (at_ms 1000)) _).
  - vm_compute. discriminate.
  - reflexivity.
Defined.

(** ** How long a zero period spins *)

Lemma to_long_sub_r (a b : Z) : to_long (a - to_ulong b) = to_long (a - b).
Proof.
  apply to_long_congr. unfold to_ulong. apply Zminus_mod_idemp_r.
Qed.

Lemma catch_up_zero_exits (clk : nat -> Ticks) (t : TinyTask) :
  interval t = 0 -> is_ulong (timeout t) ->
  forall (d n fuel : nat),
    0 < remaining (clk (n + d)%nat) t -> (d < fuel)%nat ->
    catch_up fuel clk n t = Some t.
Proof.
  intros Hi Hd. induction d as [| d IH]; intros n fuel Hexit Hf.
  - destruct fuel as [| fuel]; [lia|]. cbn [catch_up].
    rewrite Nat.add_0_r in Hexit.
    destruct (Z.leb_spec (remaining (clk n) t) 0); [lia | reflexivity].
  - destruct fuel as [| fuel]; [lia|]. cbn [catch_up].
    destruct (Z.leb_spec (remaining (clk n) t) 0); [| reflexivity].
    rewrite body_is_advance, advance_zero_interval by assumption.
    apply IH; [| lia].
    replace (S n + d)%nat with (n + S d)%nat by lia. exact Hexit.
Qed.

(** X13.  After [callEvery(0)], a [loop()] call made when the task is due,
    with the tick source moving on by [s] ticks from one reading to the
    next ([0 < s < 2^31]), tests its loop condition exactly
    [k = (2^31 + remaining) / s + 1] times: it has not returned before,
    and with [k] tests it returns, the deadline unchanged, having called
    the task function. *)
Theorem zero_interval_spin_length (hw0 : Ticks) (t0 : TinyTask)
  (clk : nat -> Ticks) (s : Z) :
  let t := snd (callEvery hw0 0 t0) in
  0 < s < half ->
  remaining (clk 0%nat) t <= 0 ->
  (forall n, now (clk n) t = to_ulong (now (clk 0%nat) t + s * Z.of_nat n)) ->
  let k := Z.to_nat ((half + remaining (clk 0%nat) t) / s + 1) in
  (forall fuel, (fuel < k)%nat -> loop fuel clk t = None) /\
  (forall fuel, (k <= fuel)%nat -> loop fuel clk t = Some (t, callTask t)).
Proof.
  intros t Hs Hdue Hclk k.
  destruct (callEvery_zero_state hw0 t0) as (Ha & Hp & Hi & Hd).
  fold t in Ha, Hp, Hi, Hd.
  set (r0 := remaining (clk 0%nat) t) in *.
  pose proof (remaining_is_long (clk 0%nat) t) as Hr0. fold r0 in Hr0.
  unfold is_long in Hr0.
  assert (Hrn : forall n, remaining (clk n) t = to_long (r0 - s * Z.of_nat n)).
  { intros n. unfold r0. rewrite !remaining_active by exact Ha.
    unfold ahead. rewrite (Hclk n), to_long_sub_r.
    replace (timeout t - (now (clk 0%nat) t + s * Z.of_nat n))
      with (timeout t - now (clk 0%nat) t + - (s * Z.of_nat n)) by ring.
    rewrite to_long_shift. f_equal. }
  assert (Hq : 0 <= (half + r0) / s) by (apply Z.div_pos; lia).
  assert (Hk : Z.of_nat k = (half + r0) / s + 1).
  { unfold k. rewrite Z2Nat.id; lia. }
  pose proof (Z.mul_div_le (half + r0) s ltac:(lia)) as Hlow.
  pose proof (Z.mul_succ_div_gt (half + r0) s ltac:(lia)) as Hhigh.
  unfold Z.succ in Hhigh.
  assert (Hbefore : forall n, (n < k)%nat -> remaining (clk n) t <= 0).
  { intros n Hn. rewrite Hrn, to_long_id.
    - nia.
    - unfold is_long. split; [nia | nia]. }
  assert (Hexit : 0 < remaining (clk k) t).
  { rewrite Hrn, <- to_long_wrap, to_long_id.
    - rewrite Hk. rewrite modulus_eq, half_eq in *. nia.
    - unfold is_long. rewrite Hk. rewrite modulus_eq, half_eq in *. nia. }
  split; intros fuel Hfuel; unfold loop; rewrite Ha, Hp;
    (destruct (Z.leb_spec (remaining (clk 0%nat) t) 0);
       [| unfold r0 in Hdue; lia]).
  - rewrite (catch_up_spins clk fuel 1 t Hd); [reflexivity|].
    intros j Hj. rewrite advance_zero_interval by assumption.
    apply Hbefore. lia.
  - rewrite (catch_up_zero_exits clk t Hi Hd (k - 1) 1 fuel); [reflexivity | |].
    + replace (1 + (k - 1))%nat with k by lia. exact Hexit.
    + lia.
Qed.

Lemma zero_interval_spin_length_witness :
  loop 3 (ticking 1000 1073741824) every0 = Some (every0, callTask every0).
Proof.
  refine (proj2 (zero_interval_spin_length (mkTicks 1 1000) (useMicros blink)
                   (ticking 1000 1073741824) 1073741824 _ _ _) 3%nat _).
  - vm_compute. split; reflexivity.
  - vm_compute. discriminate.
  - intros n. unfold ticking, now. cbn [microseconds micros].
    change (microseconds (snd (callEvery (mkTicks 1 1000) 0 (useMicros blink))))
      with true.
    cbn [micros]. rewrite Z.mul_0_r, Z.add_0_r.
    rewrite to_ulong_add_l. reflexivity.
  - vm_compute. lia.
Defined.

(** ** Scheduling again *)

(** X14.  There is one slot and no queue: an accepted scheduling call
    overwrites the deadline and the periodic and active flags that an
    earlier scheduling call or [cancel()] left.  The object after [callIn]
    (stored interval non-negative) or [callAt] is the same whether or not a
    [callIn], a [callAt] or a [cancel()] came just before; the object after
    [callEvery] with a non-negative interval is the same whether or not a
    [callIn], a [callAt], a [callEvery] or a [cancel()] came just before.
    [callIn] and [callAt] never write the interval: after an accepted
    [callEvery(x)] they leave the interval [x] in place, which is the only
    difference from the object they give without it, and [callIn] is then
    accepted whatever the interval was before. *)
Theorem rescheduling_overwrites (hw0 hw : Ticks) (x d : Z) (t : TinyTask) :
  (0 <= interval t ->
   snd (callIn hw d (snd (callIn hw0 x t))) = snd (callIn hw d t) /\
   snd (callIn hw d (snd (callAt hw0 x t))) = snd (callIn hw d t) /\
   snd (callIn hw d (cancel t)) = snd (callIn hw d t)) /\
  (snd (callAt hw d (snd (callIn hw0 x t))) = snd (callAt hw d t) /\
   snd (callAt hw d (snd (callAt hw0 x t))) = snd (callAt hw d t) /\
   snd (callAt hw d (cancel t)) = snd (callAt hw d t)) /\
  (0 <= d ->
   snd (callEvery hw d (snd (callIn hw0 x t))) = snd (callEvery hw d t) /\
   snd (callEvery hw d (snd (callAt hw0 x t))) = snd (callEvery hw d t) /\
   snd (callEvery hw d (snd (callEvery hw0 x t))) = snd (callEvery hw d t) /\
   snd (callEvery hw d (cancel t)) = snd (callEvery hw d t)) /\
  (0 <= x ->
   snd (callAt hw d (snd (callEvery hw0 x t))) =
     set_interval x (snd (callAt hw d t)) /\
   callIn hw d (snd (callEvery hw0 x t)) =
     (true,
      mkTinyTask false true (microseconds t) (pointerParam t) x
                 (to_ulong (now hw t + d))
                 (taskToCall t) (taskToCallTakesPtr t)) /\
   (0 <= interval t ->
    snd (callIn hw d (snd (callEvery hw0 x t))) =
      set_interval x (snd (callIn hw d t)))).
Proof.
  split; [| split; [| split]].
  - intros Hi.
    rewrite (callIn_accepts hw0 x t Hi), (callAt_accepts hw0 x t).
    cbn [snd]. rewrite !callIn_accepts by exact Hi.
    repeat split.
  - destruct (Z_lt_le_dec (interval t) 0) as [Hn | Hi].
    + rewrite (callIn_rejects hw0 x t Hn). rewrite !callAt_accepts.
      repeat split.
    + rewrite (callIn_accepts hw0 x t Hi). rewrite !callAt_accepts.
      repeat split.
  - intros Hd.
    rewrite (callAt_accepts hw0 x t). rewrite !(callEvery_accepts hw d) by exact Hd.
    cbn [snd]. destruct (Z_lt_le_dec (interval t) 0) as [Hn | Hi];
      destruct (Z_lt_le_dec x 0) as [Hx | Hx].
    + rewrite (callIn_rejects hw0 x t Hn), (callEvery_rejects hw0 x t Hx).
      repeat split.
    + rewrite (callIn_rejects hw0 x t Hn), (callEvery_accepts hw0 x t Hx).
      repeat split.
    + rewrite (callIn_accepts hw0 x t Hi), (callEvery_rejects hw0 x t Hx).
      repeat split.
    + rewrite (callIn_accepts hw0 x t Hi), (callEvery_accepts hw0 x t Hx).
      repeat split.
  - intros Hx. rewrite (callEvery_accepts hw0 x t Hx). cbn [snd].
    rewrite !callAt_accepts.
    rewrite (callIn_accepts hw d
               (mkTinyTask true true (microseconds t) (pointerParam t) x
                  (to_ulong (now hw0 t + x)) (taskToCall t)
                  (taskToCallTakesPtr t))) by exact Hx.
    split; [reflexivity|]. split; [reflexivity|].
    intros Hi. rewrite callIn_accepts by exact Hi. reflexivity.
Qed.

Lemma rescheduling_overwrites_witness :
  snd (callEvery (at_ms 2000) 100 (snd (callEvery (at_ms 1000) 250 blink))) =
    snd (callEvery (at_ms 2000) 100 blink) /\
  interval (snd (callIn (at_ms 2000) 100
                   (snd (callEvery (at_ms 1000) 250 blink)))) = 250.
Proof.
  pose proof (rescheduling_overwrites (at_ms 1000) (at_ms 2000) 250 100 blink)
    as (_ & _ & Hevery & Hkept).
  split.
  - apply Hevery. lia.
  - rewrite (proj2 (proj2 (Hkept ltac:(lia))) ltac:(simpl; lia)).
    reflexivity.
Defined.
